(** * boring-router: path matching, route services and the transition pipeline

    A shallow embedding of the parts of [route-match.ts], [router.ts] and
    [@utils.ts] that decide how a path is matched against the route tree, how a
    route service is created and read, and how a location change is turned
    into hook calls, a commit or a revert.

    Conventions.
    - A JavaScript string is a [string]; [length], [slice], [startsWith] and
      indexing act on its code units, here the characters of the [string].
    - A value that may be [undefined] is an [option].
    - An [Error] thrown by the code is the [Throw] case of [Completion].
    - A [RegExp] is represented by what [exec] returns as [groups[0]].
    - An object with identity (a [RouteMatch], a [Location], a promise) carries
      a key, and [===] on such objects is equality of the records. *)

From Stdlib Require Import Ascii String.
From stdpp Require Import base strings list gmap.

Set Default Proof Using "Type".
Open Scope string_scope.
Open Scope list_scope.

(** ** Values and completions *)

(** The values an extension field or a service property may hold. *)
Inductive Value :=
| VUndefined
| VBool (b : bool)
| VNum (n : Z)
| VStr (s : string)
| VRef (address : nat).

#[global] Instance Value_eq_dec : EqDecision Value.
Proof. solve_decision. Defined.

Inductive Error :=
| ExpectingSlash (got : string).

(** The outcome of a call that may throw. *)
Inductive Completion (A : Type) :=
| Normal (a : A)
| Throw (e : Error).
Arguments Normal {A} a.
Arguments Throw {A} e.

#[global] Instance Completion_bind : MBind Completion :=
  fun A B (k : A -> Completion B) (c : Completion A) =>
    match c with
    | Normal a => k a
    | Throw e => Throw e
    end.

(** A [Location] of the history: the three parts that are compared by
    [isLocationEqual], and the identity of the object. *)
Record Location := {
  pathname : string;
  search : string;
  hash : string;
  object_id : nat
}.

#[global] Instance Location_eq_dec : EqDecision Location.
Proof. solve_decision. Defined.

(** ** [@utils.ts] *)

Module Utils.

(** [s.startsWith(p)] *)
Fixpoint startsWith (s p : string) {struct p} : bool :=
  match p, s with
  | EmptyString, _ => true
  | String _ _, EmptyString => false
  | String c p', String d s' => Ascii.eqb c d && startsWith s' p'
  end.

(** [s.slice(n)] for [0 <= n] *)
Fixpoint slice (s : string) (n : nat) : string :=
  match n, s with
  | O, _ => s
  | S n', String _ s' => slice s' n'
  | S _, EmptyString => EmptyString
  end.

(** [s[n] === '/'] *)
Definition isSlashAt (s : string) (n : nat) : bool :=
  match String.get n s with
  | Some c => Ascii.eqb c "/"
  | None => false
  end.

(** The truth value of a string used as a condition. *)
Definition truthy (s : string) : bool :=
  match s with
  | EmptyString => false
  | String _ _ => true
  end.

Definition isPathPrefix (path prefix : string) : bool :=
  startsWith path prefix &&
  (Nat.eqb (String.length path) (String.length prefix) ||
   isSlashAt path (String.length prefix)).

(** [route-match.ts] and [router.ts] import this helper of [@utils.ts]
    under the name [testPathPrefix]; the [@utils.ts] at hand has it as
    [isPathPrefix]. *)
Definition testPathPrefix : string -> string -> bool := isPathPrefix.

Definition isLocationEqual (left right : Location) : bool :=
  forallb (fun key : Location -> string => String.eqb (key left) (key right))
    [pathname; search; hash].

(** The names of the members of [Object.prototype]: an object made by a
    literal or by [{}] inherits them. *)
Definition Object_prototype : list string :=
  ["constructor"; "__defineGetter__"; "__defineSetter__"; "hasOwnProperty";
   "__lookupGetter__"; "__lookupSetter__"; "isPrototypeOf";
   "propertyIsEnumerable"; "toString"; "valueOf"; "__proto__"; "toLocaleString"].

(** What reading a key of a dictionary of strings gives: a string or
    [undefined], or the member of [Object.prototype] of that name, which is
    one and the same object for every dictionary. *)
Inductive Member :=
| Text (value : option string)
| Inherited (name : string).

#[global] Instance Member_eq_dec : EqDecision Member.
Proof. solve_decision. Defined.

(** [dict[key]] for a dictionary with the own properties [dict]: the own
    property if there is one (its value may be [undefined]), else the
    inherited member if [key] names one, else [undefined]. *)
Definition dict_get (dict : gmap string (option string)) (key : string) : Member :=
  match dict !! key with
  | Some value => Text value
  | None => if bool_decide (key ∈ Object_prototype) then Inherited key else Text None
  end.

(** The keys compared are the own keys of the two dictionaries
    ([Object.keys]).  The shortcut [left === right] is left out: two
    references to one object pass the comparison of the keys as well. *)
Definition isShallowlyEqual (left right : gmap string (option string)) : bool :=
  forallb (fun key => bool_decide (dict_get left key = dict_get right key))
    (elements (dom left ∪ dom right)).

(** A JavaScript [Map] with its insertion order: [get], [set], [keys]. *)
Definition map_get {K V} `{EqDecision K} (m : list (K * V)) (k : K) : option V :=
  snd <$> List.find (fun kv => bool_decide (fst kv = k)) m.

Fixpoint map_set {K V} `{EqDecision K} (m : list (K * V)) (k : K) (v : V)
  : list (K * V) :=
  match m with
  | [] => [(k, v)]
  | (k', v') :: m' =>
      if bool_decide (k' = k) then (k, v) :: m' else (k', v') :: map_set m' k v
  end.

Definition map_keys {K V} (m : list (K * V)) : list K := map fst m.

(** [new Set(keys)], in the order of the first occurrences. *)
Fixpoint new_Set {K} `{EqDecision K} (keys : list K) : list K :=
  match keys with
  | [] => []
  | k :: keys' => k :: filter (fun k' => k' <> k) (new_Set keys')
  end.

End Utils.

(** ** [route-match.ts]: the route tree and the single-node matcher *)

Module RouteMatch.

Import Utils.

(** [string | RegExp].  A regular expression is given by the text of its
    first match in the subject, [pattern.exec(s)[0]], if there is a match. *)
Inductive MatchPattern :=
| PString (pattern : string)
| PRegExp (exec : string -> option string).

(** The identity of a [RouteMatch] object: the names on the way from the
    root of the schema down to it. *)
Definition NodeId : Type := list string.

Record RouteMatchParallelOptions := {
  groups : option (list string);
  matches : option (list NodeId)
}.

#[local] Unset Elimination Schemes.

(** The part of a [RouteMatch] fixed when the tree is built. *)
Inductive t : Type := Build {
  name : string;
  group : option string;
  id : NodeId;
  _matchPattern : MatchPattern;
  _allowExact : bool;
  _children : option (list t);
  extension : list (string * Value)
}.

#[local] Set Elimination Schemes.

Record RouteMatchInternalResult := {
  matched : bool;
  exactlyMatched : bool;
  segment : option string;
  rest : string
}.

(** The first half of [_match]: the segment and the rest. *)
Definition match_segment (this : t) (upperRest : string)
  : Completion (option string * string) :=
  if truthy upperRest then
    if negb (startsWith upperRest "/") then
      Throw (ExpectingSlash upperRest)
    else
      let upperRest := slice upperRest 1 in
      match _matchPattern this with
      | PString pattern =>
          if testPathPrefix upperRest pattern then
            Normal (Some pattern, slice upperRest (String.length pattern))
          else
            Normal (None, "")
      | PRegExp exec =>
          match exec upperRest with
          | Some matched =>
              if testPathPrefix upperRest matched then
                Normal (Some matched, slice upperRest (String.length matched))
              else
                Normal (None, "")
          | None => Normal (None, "")
          end
      end
  else
    Normal (None, "").

Definition _match (this : t) (upperRest : string)
  : Completion RouteMatchInternalResult :=
  sr ← match_segment this upperRest;
  let segment := fst sr in
  let rest := snd sr in
  let matched := bool_decide (segment <> None) in
  let exactlyMatched := matched && bool_decide (rest = "") in
  if exactlyMatched && (bool_decide (_children this <> None) && negb (_allowExact this)) then
    Normal {| matched := false; exactlyMatched := false;
              segment := segment; rest := rest |}
  else
    Normal {| matched := matched; exactlyMatched := exactlyMatched;
              segment := segment; rest := rest |}.

(** [/[^/]+/] and [/.+/] *)
Fixpoint segment_run (s : string) : string :=
  match s with
  | EmptyString => EmptyString
  | String c s' => if Ascii.eqb c "/" then EmptyString else String c (segment_run s')
  end.

Fixpoint segment_exec (s : string) : option string :=
  match s with
  | EmptyString => None
  | String c s' => if Ascii.eqb c "/" then segment_exec s' else Some (segment_run s)
  end.

(** In [/.+/] the dot stands for any character but a line terminator; of
    the line terminators, the line feed and the carriage return are
    characters of a [string] here. *)
Definition is_line_terminator (c : ascii) : bool :=
  Ascii.eqb c "010" || Ascii.eqb c "013".

Fixpoint dot_run (s : string) : string :=
  match s with
  | EmptyString => EmptyString
  | String c s' => if is_line_terminator c then EmptyString else String c (dot_run s')
  end.

Fixpoint rest_exec (s : string) : option string :=
  match s with
  | EmptyString => None
  | String c s' => if is_line_terminator c then rest_exec s' else Some (dot_run s)
  end.

Definition segment_pattern : MatchPattern := PRegExp segment_exec.
Definition rest_pattern : MatchPattern := PRegExp rest_exec.

(** *** The mutable fields of a [RouteMatch] and its service *)

(** An [IRouteService]: an object with its identity and its properties;
    [service[key]] is [undefined] for a property it does not have. *)
Record IRouteService := {
  service_id : nat;
  properties : gmap string Value
}.

#[global] Instance IRouteService_eq_dec : EqDecision IRouteService.
Proof. solve_decision. Defined.

Definition property (service : IRouteService) (key : string) : Value :=
  default VUndefined (properties service !! key).

(** What one execution of the body of a service factory does: it returns a
    service, it throws, or it returns a promise that is later fulfilled with
    a service ([Some]) or rejected ([None]). *)
Inductive FactoryRun :=
| ReturnsService (service : IRouteService)
| Throws
| ReturnsPromise (outcome : option IRouteService).

(** A [RouteServiceFactory]: the behaviour of its body at each execution,
    counted from 0. *)
Definition RouteServiceFactory : Type := nat -> FactoryRun.

(** What [tolerate(factory, this)] evaluates to: a value that is not a
    promise, or a promise with the value it is resolved with. *)
Inductive Tolerated :=
| Value_ (service : option IRouteService)
| Promise_ (resolution : option IRouteService).

(** Modelled from the spec: the helper [tolerate] of [@utils.ts] is not
    among the sources.  By the error handling design of the spec a body that
    throws or rejects is caught, logged and treated as a non-cancelling
    outcome: the call evaluates to [undefined] where the body throws, and to
    a promise resolved with [undefined] where the promise it returns is
    rejected. *)
Definition tolerate (run : FactoryRun) : Tolerated :=
  match run with
  | ReturnsService service => Value_ (Some service)
  | Throws => Value_ None
  | ReturnsPromise outcome => Promise_ outcome
  end.

(** The promise kept in [_servicePromise]: [output.then(...)], with the
    execution of the factory that made it, the value it resolves with, and
    whether its callback has run. *)
Record ServicePromise := {
  made_by : nat;
  resolution : option IRouteService;
  settled : bool
}.

#[global] Instance ServicePromise_eq_dec : EqDecision ServicePromise.
Proof. solve_decision. Defined.

(** [executions] counts the executions of the body of the factory; it is
    not a field of the class. *)
Record state := {
  _matched : bool;
  _exactlyMatched : bool;
  _service : option IRouteService;
  _servicePromise : option ServicePromise;
  _serviceFactory : option RouteServiceFactory;
  executions : nat
}.

(** A new [RouteMatch]. *)
Definition new : state :=
  {| _matched := false; _exactlyMatched := false; _service := None;
     _servicePromise := None; _serviceFactory := None; executions := 0 |}.

(** [$service(factory)]; [None] is the error for a second factory. *)
Definition set_service (factory : RouteServiceFactory) (this : state) : option state :=
  match _serviceFactory this with
  | Some _ => None
  | None =>
      Some {| _matched := _matched this; _exactlyMatched := _exactlyMatched this;
              _service := _service this; _servicePromise := _servicePromise this;
              _serviceFactory := Some factory; executions := executions this |}
  end.

Definition _update (matched exactlyMatched : bool) (this : state) : state :=
  {| _matched := matched; _exactlyMatched := exactlyMatched;
     _service := _service this; _servicePromise := _servicePromise this;
     _serviceFactory := _serviceFactory this; executions := executions this |}.

(** What [_getService] returns: a service, [undefined], or the promise of
    [_servicePromise], named by the execution that made it. *)
Inductive ServiceResult :=
| TheService (service : IRouteService)
| NoService
| ThePromise (made_by : nat).

#[global] Instance ServiceResult_eq_dec : EqDecision ServiceResult.
Proof. solve_decision. Defined.

Section observable.

(** [_service] is an [@observable] field: what an assignment stores is
    the value made by the enhancer of mobx, [observable(value)].  For a
    plain object (an array, a [Map], a [Set]) that is an observable copy,
    another object with the same properties; any other object, such as an
    instance of a class or a value that is observable already, is stored
    as it is.  mobx is a library outside the repository: its enhancer is a
    parameter.  A route stores a service at most once for each execution
    of its factory. *)
Variable observable : IRouteService -> IRouteService.

(** The value returned is [output], or what the promise is resolved with:
    the object of the factory, not the value stored. *)
Definition _getService (this : state) : state * ServiceResult :=
  match _service this with
  | Some service => (this, TheService service)
  | None =>
      match _servicePromise this with
      | Some promise => (this, ThePromise (made_by promise))
      | None =>
          match _serviceFactory this with
          | None => (this, NoService)
          | Some factory =>
              let n := executions this in
              match tolerate (factory n) with
              | Promise_ resolution =>
                  ({| _matched := _matched this;
                      _exactlyMatched := _exactlyMatched this;
                      _service := None;
                      _servicePromise :=
                        Some {| made_by := n; resolution := resolution;
                                settled := false |};
                      _serviceFactory := Some factory;
                      executions := S n |},
                   ThePromise n)
              | Value_ output =>
                  ({| _matched := _matched this;
                      _exactlyMatched := _exactlyMatched this;
                      _service := observable <$> output;
                      _servicePromise := None;
                      _serviceFactory := Some factory;
                      executions := S n |},
                   match output with
                   | Some service => TheService service
                   | None => NoService
                   end)
              end
          end
      end
  end.

(** The callback of [output.then(service => { this._service = service;
    return service; })], run when the promise of the factory is settled. *)
Definition settle (this : state) : state :=
  match _servicePromise this with
  | Some promise =>
      if settled promise then this
      else
        {| _matched := _matched this; _exactlyMatched := _exactlyMatched this;
           _service := observable <$> resolution promise;
           _servicePromise :=
             Some {| made_by := made_by promise;
                     resolution := resolution promise; settled := true |};
           _serviceFactory := _serviceFactory this;
           executions := executions this |}
  | None => this
  end.

(** The getter defined for the key of an extension with the default
    [defaultValue]. *)
Definition extension_get (this : state) (key : string) (defaultValue : Value) : Value :=
  let service := if _matched this then _service this else None in
  match service with
  | Some service => property service key
  | None => defaultValue
  end.

(** A [RouteMatch] on which [$service(factory)] has been called. *)
Definition with_service (factory : RouteServiceFactory) : state :=
  default new (set_service factory new).

(** The service the one execution of a factory leads to. *)
Definition service_of (run : FactoryRun) : option IRouteService :=
  match run with
  | ReturnsService service => Some service
  | Throws => None
  | ReturnsPromise outcome => outcome
  end.

(** [_query]: for every key of [$query], [sourceQueryDict[key]] is read,
    through the prototype as every read of a key is, and stored under the
    key when it is not [undefined].  The assignment [dict['__proto__'] =
    value] runs the setter of [Object.prototype] and makes no own
    property. *)
Definition _query (queryKeys : option (list string))
    (sourceQueryDict : gmap string string) : option (gmap string Member) :=
  match queryKeys with
  | Some queryKeys =>
      Some (fold_left
              (fun dict key =>
                 match dict_get (Some <$> sourceQueryDict) key with
                 | Text None => dict
                 | value =>
                     if String.eqb key "__proto__" then dict
                     else <[key := value]> dict
                 end)
              queryKeys ∅)
  | None => None
  end.

(** What happens to a [RouteMatch] over its lifetime. *)
Inductive Event :=
| Access                             (* a call of [_getService] *)
| Settle                             (* the promise of the factory is settled *)
| Update (matched exactlyMatched : bool).   (* a call of [_update] *)

Definition after_event (this : state) (event : Event) : state :=
  match event with
  | Access => fst (_getService this)
  | Settle => settle this
  | Update matched exactlyMatched => _update matched exactlyMatched this
  end.

Definition after_events (this : state) (events : list Event) : state :=
  fold_left after_event events this.

(** The states a route with the factory [factory] goes through, as long as
    the first execution of the factory does not throw. *)
Definition service_inv (factory : RouteServiceFactory) (this : state) : Prop :=
  _serviceFactory this = Some factory /\
  ((executions this = 0 /\ _service this = None /\ _servicePromise this = None) \/
   (executions this = 1 /\
    ((exists service, factory 0 = ReturnsService service /\
        _service this = Some (observable service) /\ _servicePromise this = None) \/
     (exists outcome done, factory 0 = ReturnsPromise outcome /\
        _servicePromise this =
          Some {| made_by := 0; resolution := outcome; settled := done |} /\
        _service this = if done then observable <$> outcome else None)))).

End observable.

(** The value a caller of [_getService] ends up with once the returned
    promise, if any, has been resolved. *)
Definition eventual (this : state) (result : ServiceResult) : option IRouteService :=
  match result with
  | TheService service => Some service
  | NoService => None
  | ThePromise _ => _servicePromise this ≫= resolution
  end.

End RouteMatch.

(** ** [router.ts]: the tree matcher *)

(** [segment: segment!] is written with [default ""]: an entry is only made
    when [matched] holds, and then the segment is defined. *)
Record RouteMatchEntry := {
  entry_match : RouteMatch.NodeId;
  entry_exact : bool;
  entry_segment : string
}.

#[global] Instance RouteMatchEntry_eq_dec : EqDecision RouteMatchEntry.
Proof. solve_decision. Defined.

Module TreeMatch.

(** [for (let routeMatch of children) { ... continue ... return ... }]:
    the first iteration that returns decides, [None] is [continue]. *)
Definition first_return {A B} (body : A -> Completion (option B))
  : list A -> Completion (option B) :=
  fix loop (l : list A) : Completion (option B) :=
    match l with
    | [] => Normal None
    | a :: l' =>
        r ← body a;
        match r with
        | Some b => Normal (Some b)
        | None => loop l'
        end
    end.

(** One iteration of the loop of [Router._match], for the child
    [routeMatch].  The recursive call [this._match(routeMatch, rest)] loops
    over [routeMatch._children || []]: without children it returns
    [undefined] at once. *)
Fixpoint visit (routeMatch : RouteMatch.t) (upperRest : string) {struct routeMatch}
  : Completion (option (list RouteMatchEntry)) :=
  match routeMatch with
  | RouteMatch.Build _ _ id _ _ children _ =>
      r ← RouteMatch._match routeMatch upperRest;
      if negb (RouteMatch.matched r) then
        Normal None
      else if RouteMatch.exactlyMatched r then
        Normal (Some [ {| entry_match := id;
                          entry_segment := default "" (RouteMatch.segment r);
                          entry_exact := true |} ])
      else
        result ← match children with
                 | Some cs =>
                     first_return (fun child => visit child (RouteMatch.rest r)) cs
                 | None => Normal None
                 end;
        match result with
        | None => Normal None
        | Some result =>
            Normal (Some ({| entry_match := id;
                             entry_segment := default "" (RouteMatch.segment r);
                             entry_exact := false |} :: result))
        end
  end.

(** [Router._match(target, upperRest)], [children] being
    [target._children || []]. *)
Definition _match (children : list RouteMatch.t) (upperRest : string)
  : Completion (option (list RouteMatchEntry)) :=
  first_return (fun routeMatch => visit routeMatch upperRest) children.

End TreeMatch.

(** ** [router.ts]: building the tree from the schema *)

Module Build.

#[local] Unset Elimination Schemes.

(** A [RouteSchema]; [true] in a schema dictionary stands for the empty
    schema. *)
Inductive RouteSchema : Type := Schema {
  schema_match : option RouteMatch.MatchPattern;
  schema_query : option (list string);
  schema_exact : option bool;
  schema_children : option (list (string * RouteSchema));
  schema_extension : option (list (string * Value));
  schema_group : option string
}.

#[local] Set Elimination Schemes.

Definition empty_schema : RouteSchema := Schema None None None None None None.

Section build.

(** [this._segmentMatcher], by default [hyphenate(key, {lowerCase: true})]
    of the library [hyphenate]. *)
Variable segmentMatcher : string -> string.

(** The [RouteMatch] made for the entry [(key, schema)] below a parent with
    identity [parent] and group [parentGroup], with its subtree. *)
Fixpoint build_one (parent : RouteMatch.NodeId) (parentGroup : option string)
    (key : string) (schema : RouteSchema) {struct schema} : RouteMatch.t :=
  match schema with
  | Schema smatch _ sexact schildren sextension sgroup =>
      let group := match sgroup with Some g => Some g | None => parentGroup end in
      let id := parent ++ [key] in
      RouteMatch.Build key group id
        (default (RouteMatch.PString (segmentMatcher key)) smatch)
        (default false sexact)
        (match schildren with
         | Some children =>
             Some (map (fun entry => build_one id group (fst entry) (snd entry)) children)
         | None => None
         end)
        (default [] sextension)
  end.

(** [_build(schemaDict, parent, groupSet, matchingParent)]: the list of the
    [RouteMatch] objects of one schema dictionary, [schemaDict] being the
    list [Object.entries] gives. *)
Definition _build (schemaDict : list (string * RouteSchema))
    (parent : RouteMatch.NodeId) (parentGroup : option string) : list RouteMatch.t :=
  map (fun entry => build_one parent parentGroup (fst entry) (snd entry)) schemaDict.

(** [groupSet]: the groups of the routes of the root dictionary, in the
    order of their first occurrence. *)
Fixpoint add_group (groupSet : list string) (group : string) : list string :=
  match groupSet with
  | [] => [group]
  | g :: rest => if String.eqb g group then groupSet else g :: add_group rest group
  end.

Definition groups_of (routeMatches : list RouteMatch.t) : list string :=
  fold_left
    (fun groupSet routeMatch =>
       match RouteMatch.group routeMatch with
       | Some group => if Utils.truthy group then add_group groupSet group else groupSet
       | None => groupSet
       end)
    routeMatches [].

End build.

End Build.

(** ** Complete chains of the route tree *)

Module Chains.

Import RouteMatch.

Definition children_of (routeMatch : RouteMatch.t) : list RouteMatch.t :=
  default [] (_children routeMatch).

Definition entry_of (routeMatch : RouteMatch.t) (r : RouteMatchInternalResult)
    (exact : bool) : RouteMatchEntry :=
  {| entry_match := id routeMatch;
     entry_segment := default "" (segment r);
     entry_exact := exact |}.

(** [Chain children path indexes chain]: going down from [children] along
    the positions [indexes], every node matches what is left of [path], the
    last one exactly and the others not exactly; [chain] lists the entries. *)
Inductive Chain : list RouteMatch.t -> string -> list nat -> list RouteMatchEntry -> Prop :=
| Chain_exact children path i routeMatch r :
    children !! i = Some routeMatch ->
    RouteMatch._match routeMatch path = Normal r ->
    matched r = true ->
    exactlyMatched r = true ->
    Chain children path [i] [entry_of routeMatch r true]
| Chain_step children path i routeMatch r indexes chain :
    children !! i = Some routeMatch ->
    RouteMatch._match routeMatch path = Normal r ->
    matched r = true ->
    exactlyMatched r = false ->
    Chain (children_of routeMatch) (rest r) indexes chain ->
    Chain children path (i :: indexes) (entry_of routeMatch r false :: chain).

(** Declaration order, level by level. *)
Fixpoint lex_le (a b : list nat) : Prop :=
  match a, b with
  | [], _ => True
  | _ :: _, [] => False
  | x :: a', y :: b' => x < y \/ (x = y /\ lex_le a' b')
  end.

(** The path spelled by the segments of a chain, as [$ref] joins them:
    [/segment] for every entry. *)
Definition path_of_chain (chain : list RouteMatchEntry) : string :=
  foldr (fun entry path => "/" +:+ entry_segment entry +:+ path) "" chain.

(** The character [c] does not occur in [s]. *)
Definition free_of (c : ascii) (s : string) : Prop :=
  forall a b, s <> a +:+ String c b.

(** A path the matcher accepts: empty, or starting with a slash. *)
Definition well_formed (path : string) : Prop :=
  path = "" \/ exists tail, path = String "/" tail.

(** [result] is the first complete chain below [children] for [path], in
    declaration order, or [undefined] when there is none; it is not an
    error. *)
Definition first_chain (children : list RouteMatch.t) (path : string)
    (result : Completion (option (list RouteMatchEntry))) : Prop :=
  match result with
  | Normal (Some chain) =>
      exists indexes,
        Chain children path indexes chain /\
        forall indexes' chain',
          Chain children path indexes' chain' -> lex_le indexes indexes'
  | Normal None => forall indexes chain, ~ Chain children path indexes chain
  | Throw _ => False
  end.

End Chains.

(** ** [router.ts]: the transition pipeline *)

Module Router.

Import Utils.

Abbreviation NodeId := RouteMatch.NodeId.

(** A [Map<RouteMatch, RouteMatchEntry>], in insertion order. *)
Abbreviation EntryMap := (list (NodeId * RouteMatchEntry)).

(** [new Map(entries.map(entry => [entry.match, entry]))] *)
Definition new_EntryMap (entries : list RouteMatchEntry) : EntryMap :=
  fold_left (fun m entry => map_set m (entry_match entry) entry) entries [].

(** A value read with [get(group)!] may be [undefined] and is stored as
    such. *)
Record RouteSource := {
  groupToMatchToMatchEntryMapMap : gmap (option string) (option EntryMap);
  queryDict : gmap string string;
  pathMap : list (option string * option string)
}.

Definition empty_source : RouteSource :=
  {| groupToMatchToMatchEntryMapMap := ∅; queryDict := ∅; pathMap := [] |}.

(** The fields of the [Router] that are set by the constructor and by the
    set-up calls, and are not written afterwards. *)
Record Config := {
  _children : list RouteMatch.t;
  _groups : list string;
  _prefix : string;
  _default : Location;
  (* [_parallel] of the [RouteMatch] objects, set by [$parallel] *)
  _parallel : gmap NodeId RouteMatch.RouteMatchParallelOptions;
  (* whether [onLeave] and [onChange] were given *)
  has_onLeave : bool;
  has_onChange : bool
}.

(** The fields written by the pipeline, the two observable flags of every
    [RouteMatch], and the calls made to the collaborators, oldest first. *)
Record State := {
  _location : option Location;
  _nextLocation : option Location;
  _source : RouteSource;
  _matchingSource : RouteSource;
  flags : gmap NodeId (bool * bool);
  replace_calls : list Location;
  onLeave_calls : list string;
  onChange_calls : list (option Location * Location)
}.

Definition initial : State :=
  {| _location := None; _nextLocation := None;
     _source := empty_source; _matchingSource := empty_source;
     flags := ∅; replace_calls := []; onLeave_calls := []; onChange_calls := [] |}.

(** [match.$matched] and [match.$exact] *)
Definition matched_flag (this : State) (m : NodeId) : bool :=
  default false (fst <$> flags this !! m).

Definition exact_flag (this : State) (m : NodeId) : bool :=
  default false (snd <$> flags this !! m).

(** The statements of [_update], [_revert] and [_asyncOnLocationChange]
    that write a field or call a collaborator. *)
Inductive Action :=
| SetEntryMap (group : option string)
    (* [this._source.groupToMatchToMatchEntryMapMap.set(group, new Map())] *)
| HistoryReplace (location : Location)
    (* [this._history.replace(location)] *)
| SetLocation (location : Location)
    (* [this._location = nextLocation] *)
| Commit (group : option string)
    (* the [runInAction] block of [_update] *)
| UpdateMatch (m : NodeId) (matched exactlyMatched : bool)
    (* [match._update(matched, exactlyMatched)] *)
| Publish (source : RouteSource)
    (* [Object.assign(this._matchingSource, {...})] *)
| OnLeave (pathname : string)
| OnChange (from : option Location) (to : Location).

Definition commit_source (group : option string) (source matchingSource : RouteSource)
  : RouteSource :=
  {| queryDict := queryDict matchingSource;
     pathMap :=
       map_set (pathMap source) group (mjoin (map_get (pathMap matchingSource) group));
     groupToMatchToMatchEntryMapMap :=
       <[group := mjoin (groupToMatchToMatchEntryMapMap matchingSource !! group)]>
         (groupToMatchToMatchEntryMapMap source) |}.

Definition perform (action : Action) (this : State) : State :=
  match action with
  | SetEntryMap group =>
      {| _location := _location this; _nextLocation := _nextLocation this;
         _source :=
           {| groupToMatchToMatchEntryMapMap :=
                <[group := Some []]> (groupToMatchToMatchEntryMapMap (_source this));
              queryDict := queryDict (_source this);
              pathMap := pathMap (_source this) |};
         _matchingSource := _matchingSource this; flags := flags this;
         replace_calls := replace_calls this; onLeave_calls := onLeave_calls this;
         onChange_calls := onChange_calls this |}
  | HistoryReplace location =>
      {| _location := _location this; _nextLocation := _nextLocation this;
         _source := _source this; _matchingSource := _matchingSource this;
         flags := flags this;
         replace_calls := replace_calls this ++ [location];
         onLeave_calls := onLeave_calls this; onChange_calls := onChange_calls this |}
  | SetLocation location =>
      {| _location := Some location; _nextLocation := _nextLocation this;
         _source := _source this; _matchingSource := _matchingSource this;
         flags := flags this; replace_calls := replace_calls this;
         onLeave_calls := onLeave_calls this; onChange_calls := onChange_calls this |}
  | Commit group =>
      {| _location := _location this; _nextLocation := _nextLocation this;
         _source := commit_source group (_source this) (_matchingSource this);
         _matchingSource := _matchingSource this; flags := flags this;
         replace_calls := replace_calls this; onLeave_calls := onLeave_calls this;
         onChange_calls := onChange_calls this |}
  | UpdateMatch m matched exactlyMatched =>
      {| _location := _location this; _nextLocation := _nextLocation this;
         _source := _source this; _matchingSource := _matchingSource this;
         flags := <[m := (matched, exactlyMatched)]> (flags this);
         replace_calls := replace_calls this; onLeave_calls := onLeave_calls this;
         onChange_calls := onChange_calls this |}
  | Publish source =>
      {| _location := _location this; _nextLocation := _nextLocation this;
         _source := _source this; _matchingSource := source;
         flags := flags this; replace_calls := replace_calls this;
         onLeave_calls := onLeave_calls this; onChange_calls := onChange_calls this |}
  | OnLeave pathname =>
      {| _location := _location this; _nextLocation := _nextLocation this;
         _source := _source this; _matchingSource := _matchingSource this;
         flags := flags this; replace_calls := replace_calls this;
         onLeave_calls := onLeave_calls this ++ [pathname];
         onChange_calls := onChange_calls this |}
  | OnChange from to =>
      {| _location := _location this; _nextLocation := _nextLocation this;
         _source := _source this; _matchingSource := _matchingSource this;
         flags := flags this; replace_calls := replace_calls this;
         onLeave_calls := onLeave_calls this;
         onChange_calls := onChange_calls this ++ [(from, to)] |}
  end.

(** [_onLocationChange] records the location; the call of
    [_asyncOnLocationChange] it chains on [_changing] is [begin_next]
    below. *)
Definition _onLocationChange (location : Location) (this : State) : State :=
  {| _location := _location this; _nextLocation := Some location;
     _source := _source this; _matchingSource := _matchingSource this;
     flags := flags this; replace_calls := replace_calls this;
     onLeave_calls := onLeave_calls this; onChange_calls := onChange_calls this |}.

Definition _isNextLocationOutDated (this : State) (location : Location) : bool :=
  bool_decide (Some location <> _nextLocation this).

(** *** Hooks and asynchronous functions *)

Inductive HookKind :=
| BeforeLeave | BeforeEnter | BeforeUpdate
| AfterLeave | AfterEnter | AfterUpdate.

#[global] Instance HookKind_eq_dec : EqDecision HookKind.
Proof. solve_decision. Defined.

(** What a hook callback gives once [tolerate] has caught its failure. *)
Inductive HookReturn := ReturnsTrue | ReturnsFalse | ReturnsUndefined.

#[global] Instance HookReturn_eq_dec : EqDecision HookReturn.
Proof. solve_decision. Defined.

(** [!results.some(result => result === false)], the value of
    [_beforeLeave], [_beforeEnter] and [_beforeUpdate] for the results of
    the callbacks of the route and of its service. *)
Definition before_result (results : list HookReturn) : bool :=
  negb (existsb (fun result => bool_decide (result = ReturnsFalse)) results).

(** An asynchronous function of the router, cut at its [await]s.  The
    callbacks run by a hook are code of the user: [Await] stands for the
    call of the hook method of a [RouteMatch] and hands its results to the
    rest of the function. *)
Inductive Proc :=
| Done
| Get (k : State -> Proc)
| Perform (action : Action) (k : Proc)
| Await (hook : HookKind) (m : NodeId) (k : list HookReturn -> Proc).

Section with_config.

Variable config : Config.

(** Looking up a [RouteMatch] by its identity. *)
Definition child_named (children : list RouteMatch.t) (name : string)
  : option RouteMatch.t :=
  List.find (fun child => String.eqb (RouteMatch.name child) name) children.

(** The route with the identity [names] and the routes above it, from the
    top. *)
Fixpoint lineage (children : list RouteMatch.t) (names : NodeId)
  : list RouteMatch.t :=
  match names with
  | [] => []
  | name :: names' =>
      match child_named children name with
      | Some child => child :: lineage (Chains.children_of child) names'
      | None => []
      end
  end.

Definition find_match (m : NodeId) : option RouteMatch.t :=
  last (lineage (_children config) m).

(** [match.$group] *)
Definition group_of (m : NodeId) : option string :=
  find_match m ≫= RouteMatch.group.

(** [_getMatchEntry(source)] *)
Definition _getMatchEntry (source : RouteSource) (m : NodeId)
  : option RouteMatchEntry :=
  matchToMatchEntryMap ← mjoin (groupToMatchToMatchEntryMapMap source !! group_of m);
  map_get matchToMatchEntryMap m.

(** [_segment] *)
Definition _segment (source : RouteSource) (m : NodeId) : option string :=
  entry_segment <$> _getMatchEntry source m.

(** [_pathSegments]: the dictionary of the parent, then the own name with
    the literal pattern or the matched segment. *)
Definition _pathSegments (source : RouteSource) (m : NodeId)
  : gmap string (option string) :=
  fold_left
    (fun upperSegmentDict routeMatch =>
       <[RouteMatch.name routeMatch :=
           match RouteMatch._matchPattern routeMatch with
           | RouteMatch.PString matchPattern => Some matchPattern
           | RouteMatch.PRegExp _ => _segment source (RouteMatch.id routeMatch)
           end]> upperSegmentDict)
    (lineage (_children config) m) ∅.

(** [$exact] of a [NextRouteMatch] *)
Definition next_exact (matchingSource : RouteSource) (m : NodeId) : bool :=
  match _getMatchEntry matchingSource m with
  | Some entry => entry_exact entry
  | None => false
  end.

Definition _revert (k : Proc) : Proc :=
  Get (fun this =>
    Perform (HistoryReplace (default (_default config) (_location this))) k).

(** The loops over the [before] hooks: [hooks] lists, for the routes of
    the loop, the hook method that is awaited and the route. *)
Fixpoint before_loop (nextLocation : Location) (hooks : list (HookKind * NodeId))
    (k : Proc) : Proc :=
  match hooks with
  | [] => k
  | (hook, m) :: hooks' =>
      Await hook m (fun results =>
        let result := before_result results in
        Get (fun this =>
          if _isNextLocationOutDated this nextLocation then Done
          else if negb result then _revert Done
          else before_loop nextLocation hooks' k))
  end.

Fixpoint update_loop (updates : list (NodeId * (bool * bool))) (k : Proc) : Proc :=
  match updates with
  | [] => k
  | (m, (matched, exactlyMatched)) :: updates' =>
      Perform (UpdateMatch m matched exactlyMatched) (update_loop updates' k)
  end.

Fixpoint after_loop (hooks : list (HookKind * NodeId)) (k : Proc) : Proc :=
  match hooks with
  | [] => k
  | (hook, m) :: hooks' => Await hook m (fun _ => after_loop hooks' k)
  end.

Definition previousMatchSet (this : State) (group : option string) : list NodeId :=
  new_Set
    (map_keys
       (default [] (mjoin (groupToMatchToMatchEntryMapMap (_source this) !! group)))).

Definition nextMatchSet (matchToMatchEntryMap : EntryMap) : list NodeId :=
  new_Set (map_keys matchToMatchEntryMap).

Definition reversedLeavingMatches (this : State) (group : option string)
    (matchToMatchEntryMap : EntryMap) : list NodeId :=
  reverse
    (filter (fun m => m ∉ nextMatchSet matchToMatchEntryMap)
       (previousMatchSet this group)).

Definition enteringAndUpdatingMatchSet (this : State) (group : option string)
    (matchToMatchEntryMap : EntryMap) : list NodeId :=
  filter
    (fun m =>
       ~ (m ∈ previousMatchSet this group /\
          isShallowlyEqual (_pathSegments (_source this) m)
            (_pathSegments (_matchingSource this) m) = true /\
          exact_flag this m = next_exact (_matchingSource this) m))
    (nextMatchSet matchToMatchEntryMap).

(** [let {exact} = matchToMatchEntryMap.get(match)!]: the route is a key of
    the map. *)
Definition exact_in (matchToMatchEntryMap : EntryMap) (m : NodeId) : bool :=
  match map_get matchToMatchEntryMap m with
  | Some entry => entry_exact entry
  | None => false
  end.

(** [update ? match._beforeUpdate() : match._beforeEnter()] with
    [update = previousMatchSet.has(match)], and the same for the [after]
    hooks. *)
Definition before_hook (previous : list NodeId) (m : NodeId) : HookKind * NodeId :=
  (if bool_decide (m ∈ previous) then BeforeUpdate else BeforeEnter, m).

Definition after_hook (previous : list NodeId) (m : NodeId) : HookKind * NodeId :=
  (if bool_decide (m ∈ previous) then AfterUpdate else AfterEnter, m).

(** The [before] hooks an update awaits when none of them stops it. *)
Definition before_hooks (this : State) (group : option string)
    (matchToMatchEntryMap : EntryMap) : list (HookKind * NodeId) :=
  map (fun m => (BeforeLeave, m))
    (reversedLeavingMatches this group matchToMatchEntryMap) ++
  map (before_hook (previousMatchSet this group))
    (enteringAndUpdatingMatchSet this group matchToMatchEntryMap).

(** [if (!previousMatchToMatchEntryMap) { ... }] *)
Definition ensure_entry_map (this : State) (group : option string) : list Action :=
  match mjoin (groupToMatchToMatchEntryMapMap (_source this) !! group) with
  | None => [SetEntryMap group]
  | Some _ => []
  end.

Fixpoint perform_all (actions : list Action) (k : Proc) : Proc :=
  match actions with
  | [] => k
  | action :: actions' => Perform action (perform_all actions' k)
  end.

Definition _update (nextLocation : Location) (group : option string)
    (matchToMatchEntryMap : EntryMap) : Proc :=
  Get (fun this =>
    perform_all (ensure_entry_map this group)
    (Get (fun this =>
      let previous := previousMatchSet this group in
      let leaving := reversedLeavingMatches this group matchToMatchEntryMap in
      let entering := enteringAndUpdatingMatchSet this group matchToMatchEntryMap in
      before_loop nextLocation (map (fun m => (BeforeLeave, m)) leaving)
      (before_loop nextLocation (map (before_hook previous) entering)
      (Perform (SetLocation nextLocation)
      (Perform (Commit group)
      (update_loop (map (fun m => (m, (false, false))) leaving)
      (update_loop
         (map (fun m => (m, (true, exact_in matchToMatchEntryMap m)))
            (nextMatchSet matchToMatchEntryMap))
      (after_loop (map (fun m => (AfterLeave, m)) leaving)
      (after_loop (map (after_hook previous) entering)
       Done)))))))))).

(** The [after] hooks an update awaits once it has committed. *)
Definition after_hooks (this : State) (group : option string)
    (matchToMatchEntryMap : EntryMap) : list (HookKind * NodeId) :=
  map (fun m => (AfterLeave, m))
    (reversedLeavingMatches this group matchToMatchEntryMap) ++
  map (after_hook (previousMatchSet this group))
    (enteringAndUpdatingMatchSet this group matchToMatchEntryMap).

(** What an update performs between its last [before] hook and its first
    [after] hook. *)
Definition commit_actions (nextLocation : Location) (group : option string)
    (leaving : list NodeId) (matchToMatchEntryMap : EntryMap) : list Action :=
  [SetLocation nextLocation; Commit group] ++
  map (fun m => UpdateMatch m false false) leaving ++
  map (fun m => UpdateMatch m true (exact_in matchToMatchEntryMap m))
    (nextMatchSet matchToMatchEntryMap).

(** The state an update works on: [this] with the entry map of [group]
    in the committed source, empty if there was none. *)
Definition prepared (this : State) (group : option string) : State :=
  fold_left (fun this action => perform action this)
    (ensure_entry_map this group) this.

(** *** Running an asynchronous function *)

(** What has been done: the statements performed and the hooks whose
    results have arrived. *)
Inductive Occurrence :=
| Did (action : Action)
| Awaited (hook : HookKind) (m : NodeId).

(** The synchronous part of a run: up to the next [await] or to the end. *)
Fixpoint run_sync (p : Proc) (this : State) : State * list Occurrence * Proc :=
  match p with
  | Done => (this, [], Done)
  | Get k => run_sync (k this) this
  | Perform action k =>
      let '(this', trace, p') := run_sync k (perform action this) in
      (this', Did action :: trace, p')
  | Await _ _ _ => (this, [], p)
  end.

(** What happens while a hook is awaited: other code changes the state
    ([meanwhile]: a location arrives, the update of another group goes on),
    then the results of the hook arrive. *)
Record Resumption := {
  meanwhile : State -> State;
  results : list HookReturn
}.

Inductive Status :=
| Finished
| Suspended (p : Proc).

Fixpoint run (p : Proc) (this : State) (script : list Resumption)
  : State * list Occurrence * Status :=
  let '(this1, trace1, p1) := run_sync p this in
  match p1 with
  | Await hook m k =>
      match script with
      | [] => (this1, trace1, Suspended p1)
      | r :: script' =>
          let '(this2, trace2, status) :=
            run (k (results r)) (meanwhile r this1) script' in
          (this2, trace1 ++ Awaited hook m :: trace2, status)
      end
  | _ => (this1, trace1, Finished)
  end.

(** The statements performed in a run. *)
Definition own_actions (trace : list Occurrence) : list Action :=
  omap (fun occurrence =>
          match occurrence with
          | Did action => Some action
          | Awaited _ _ => None
          end) trace.

(** The locations [this._history.replace] was called with in a run. *)
Definition replaced (trace : list Occurrence) : list Location :=
  omap (fun occurrence =>
          match occurrence with
          | Did (HistoryReplace location) => Some location
          | _ => None
          end) trace.

Definition awaited (hooks : list (HookKind * NodeId)) : list Occurrence :=
  map (fun hook => Awaited (fst hook) (snd hook)) hooks.

(** The hooks whose results have arrived in a run, in order. *)
Definition hooks_awaited (trace : list Occurrence) : list (HookKind * NodeId) :=
  omap (fun occurrence =>
          match occurrence with
          | Did _ => None
          | Awaited hook m => Some (hook, m)
          end) trace.

Definition is_before (hook : HookKind) : bool :=
  match hook with
  | BeforeLeave | BeforeEnter | BeforeUpdate => true
  | AfterLeave | AfterEnter | AfterUpdate => false
  end.



(** The resumptions of [script] all let the update of [nextLocation] go
    on: when the results of the hook arrive the location is still the last
    one recorded, and no result is [false].  The state is then the one the
    code running meanwhile has made of [this]. *)
Fixpoint approved (nextLocation : Location) (this : State)
    (script : list Resumption) : option State :=
  match script with
  | [] => Some this
  | r :: script' =>
      let this' := meanwhile r this in
      if _isNextLocationOutDated this' nextLocation ||
         negb (before_result (results r))
      then None
      else approved nextLocation this' script'
  end.

(** The flags never show a route exactly matched and not matched. *)
Definition consistent (this : State) : Prop :=
  forall m, exact_flag this m = true -> matched_flag this m = true.

(** [match._update(false, false)] or [match._update(true, exact)] *)
Definition regular (action : Action) : Prop :=
  match action with
  | UpdateMatch _ matched exactlyMatched =>
      matched = true \/ (matched = false /\ exactlyMatched = false)
  | _ => True
  end.

Inductive Regular : Proc -> Prop :=
| Regular_Done : Regular Done
| Regular_Get k : (forall this, Regular (k this)) -> Regular (Get k)
| Regular_Perform action k : regular action -> Regular k -> Regular (Perform action k)
| Regular_Await hook m k : (forall results, Regular (k results)) -> Regular (Await hook m k).

(** *** [_asyncOnLocationChange] *)

(** [new URLSearchParams(search)] of the platform, as the list of its
    entries. *)
Variable URLSearchParams : string -> list (string * string).

Definition queryDict_of (search : string) : gmap string string :=
  fold_left (fun dict entry => <[fst entry := snd entry]> dict)
    (URLSearchParams search) ∅.

(** [pathname.slice(prefix.length) || '/'] *)
Definition pathWithoutPrefix (pathname prefix : string) : string :=
  let path := slice pathname (String.length prefix) in
  if truthy path then path else "/".

(** The loop over [this._groups]: the paths of the groups are taken out
    of the query. *)
Definition extract_group
    (acc : list (string * option string) * list (option string * option string) *
           gmap string string)
    (group : string) :=
  let '(pathInfos, pathMap, queryDict) := acc in
  let key := "_" +:+ group in
  match queryDict !! key with
  | None => acc
  | Some path =>
      if truthy path then
        (pathInfos ++ [(path, Some group)],
         map_set pathMap (Some group) (Some path),
         delete key queryDict)
      else
        (pathInfos, pathMap, delete key queryDict)
  end.

(** The path the query gives for [group]: the value of the key
    [_group], when there is one and it is not empty. *)
Definition group_path (queryDict : gmap string string) (group : string)
  : option string :=
  match queryDict !! ("_" +:+ group) with
  | Some path => if truthy path then Some path else None
  | None => None
  end.

(** The loop over [pathInfos]: the chains of the paths whose first route
    is of the group of the path. *)
Fixpoint match_paths (pathInfos : list (string * option string))
    (groupToMatchEntriesMap : list (option string * list RouteMatchEntry))
  : Completion (list (option string * list RouteMatchEntry)) :=
  match pathInfos with
  | [] => Normal groupToMatchEntriesMap
  | (path, group) :: pathInfos' =>
      result ← TreeMatch._match (_children config) path;
      match default [] result with
      | [] => match_paths pathInfos' groupToMatchEntriesMap
      | entry :: entries =>
          if bool_decide (group_of (entry_match entry) <> group) then
            match_paths pathInfos' groupToMatchEntriesMap
          else
            match_paths pathInfos'
              (map_set groupToMatchEntriesMap group (entry :: entries))
      end
  end.

(** The chain the loop keeps for [group] on [path]: the chain of the
    path, when there is one and its first route is of the group. *)
Definition group_chain (group : option string) (path : string)
  : option (list RouteMatchEntry) :=
  match TreeMatch._match (_children config) path with
  | Normal (Some (entry :: entries)) =>
      if bool_decide (group_of (entry_match entry) = group)
      then Some (entry :: entries) else None
  | _ => None
  end.

(** [!group] *)
Definition no_group (group : option string) : bool :=
  match group with
  | Some group => negb (truthy group)
  | None => true
  end.

(** The check of the parallel whitelist of the primary route. *)
Definition whitelisted
    (groupToMatchEntriesMap : list (option string * list RouteMatchEntry))
  : gmap (option string) (option Router.EntryMap) :=
  match map_get groupToMatchEntriesMap None with
  | Some (primaryEntry :: _) =>
      let whitelist := _parallel config !! entry_match primaryEntry in
      let groups := default [] (whitelist ≫= RouteMatch.groups) in
      let matches := default [] (whitelist ≫= RouteMatch.matches) in
      fold_left
        (fun result item =>
           match snd item with
           | entry :: _ =>
               if bool_decide (whitelist = None) || no_group (fst item) ||
                  bool_decide (fst item ∈ map Some groups) ||
                  bool_decide (entry_match entry ∈ matches)
               then <[fst item := Some (new_EntryMap (snd item))]> result
               else result
           | [] => result
           end)
        groupToMatchEntriesMap ∅
  | _ => ∅
  end.

(** The chain kept for [group] when the path map is [pathMap]. *)
Definition chain_at (pathMap : list (option string * option string))
    (group : option string) : option (list RouteMatchEntry) :=
  mjoin (map_get pathMap group) ≫= group_chain group.

(** How far [_asyncOnLocationChange] gets before its [_update] calls. *)
Inductive Pipeline :=
| Returns                       (* [return] before anything is read *)
| Leaves (pathname : string)    (* the path is out of the prefix *)
| Fails (e : Error)             (* the matcher threw *)
| Updates (matchingSource : RouteSource)
    (updates : list (option string * Router.EntryMap)).

Definition _asyncOnLocationChange (nextLocation : Location) (this : State)
  : Pipeline :=
  if _isNextLocationOutDated this nextLocation then Returns
  else
    let location := _location this in
    if match location with
       | Some location => isLocationEqual location nextLocation
       | None => false
       end
    then Returns
    else
      let queryDict := queryDict_of (search nextLocation) in
      let prefix := _prefix config in
      if negb (testPathPrefix (pathname nextLocation) prefix) then
        Leaves (pathname nextLocation)
      else
        let path := pathWithoutPrefix (pathname nextLocation) prefix in
        let '(pathInfos, pathMap, queryDict) :=
          fold_left extract_group (_groups config)
            ([(path, None)], [(None, Some path)], queryDict) in
        match match_paths pathInfos [] with
        | Throw e => Fails e
        | Normal groupToMatchEntriesMap =>
            let groupToMatchToMatchEntryMapMap := whitelisted groupToMatchEntriesMap in
            let groupSet :=
              new_Set (map_keys pathMap ++ map_keys (Router.pathMap (_source this))) in
            Updates
              {| groupToMatchToMatchEntryMapMap := groupToMatchToMatchEntryMapMap;
                 queryDict := queryDict;
                 pathMap := pathMap |}
              (map (fun group =>
                      (group,
                       default [] (mjoin (groupToMatchToMatchEntryMapMap !! group))))
                 groupSet)
        end.

(** The [_update] calls are made one after the other; each runs up to its
    first [await] before the next is made. *)
Definition start_updates (nextLocation : Location)
    (updates : list (option string * Router.EntryMap)) (this : State)
  : State * list Occurrence * list Proc :=
  fold_left
    (fun acc update =>
       let '(this, trace, procs) := acc in
       let '(this', trace', p) :=
         run_sync (_update nextLocation (fst update) (snd update)) this in
       (this', trace ++ trace', procs ++ [p]))
    updates (this, [], []).

(** [_asyncOnLocationChange] up to the first [await] of its updates:
    the state, what was done, and the updates if any were begun. *)
Definition begin (nextLocation : Location) (this : State)
  : State * list Occurrence * option (list Proc) :=
  match _asyncOnLocationChange nextLocation this with
  | Returns => (this, [], None)
  | Fails _ => (this, [], None)
  | Leaves pathname =>
      if has_onLeave config then
        (perform (OnLeave pathname) this, [Did (OnLeave pathname)], None)
      else (this, [], None)
  | Updates matchingSource todo =>
      let '(this', trace, procs) :=
        start_updates nextLocation todo (perform (Publish matchingSource) this) in
      (this', Did (Publish matchingSource) :: trace, Some procs)
  end.

(** *** The router at work *)

(** [updates]: the [_update] calls of the transition in flight;
    [in_flight]: the arguments [onChange] is to be called with when they
    are over; [queue]: the locations whose [_asyncOnLocationChange] is
    chained on [_changing] and has not begun. *)
Record System := {
  state : State;
  updates : list Proc;
  in_flight : option (option Location * Location);
  queue : list Location
}.

Definition boot : System :=
  {| state := initial; updates := []; in_flight := None; queue := [] |}.

Definition is_over (p : Proc) : bool :=
  match p with
  | Await _ _ _ => false
  | _ => true
  end.

(** The history delivers a location: [_onLocationChange]. *)
Definition deliver (location : Location) (system : System) : System :=
  {| state := _onLocationChange location (state system);
     updates := updates system;
     in_flight := in_flight system;
     queue := queue system ++ [location] |}.

(** The next [_asyncOnLocationChange] of the chain begins, when the one
    before is over. *)
Definition begin_next (system : System) : option System :=
  match in_flight system, queue system with
  | None, nextLocation :: rest =>
      let '(this', _, started) := begin nextLocation (state system) in
      Some {| state := this';
              updates := default [] started;
              in_flight :=
                (fun _ => (_location (state system), nextLocation)) <$> started;
              queue := rest |}
  | _, _ => None
  end.

(** The results of the hook awaited by the update [i] arrive. *)
Definition answer (i : nat) (results : list HookReturn) (system : System)
  : option System :=
  match updates system !! i with
  | Some (Await hook m k) =>
      let '(this', _, p') := run_sync (k results) (state system) in
      Some {| state := this';
              updates := <[i := p']> (updates system);
              in_flight := in_flight system;
              queue := queue system |}
  | _ => None
  end.

(** [Promise.all(updatePromises)] is fulfilled: [onChange] is called. *)
Definition finish (system : System) : option System :=
  match in_flight system with
  | Some (from, to) =>
      if forallb is_over (updates system) then
        Some {| state :=
                  if has_onChange config then perform (OnChange from to) (state system)
                  else state system;
                updates := [];
                in_flight := None;
                queue := queue system |}
      else None
  | None => None
  end.

Inductive step : System -> System -> Prop :=
| step_location system location :
    step system (deliver location system)
| step_begin system system' :
    begin_next system = Some system' -> step system system'
| step_hook system i results system' :
    answer i results system = Some system' -> step system system'
| step_over system system' :
    finish system = Some system' -> step system system'.

Definition reachable (system : System) : Prop := rtc step boot system.

End with_config.

End Router.

(** ** Schemas used as examples *)

Module Examples.

Import Build.

(** For a key in lower case without separators, the default segment matcher
    returns the key. *)
Definition segmentMatcher (key : string) : string := key.

Definition build (schemaDict : list (string * RouteSchema)) : list RouteMatch.t :=
  _build segmentMatcher schemaDict [] None.

(** [{x: {$children: {y: {}}}}] *)
Definition schema_x_y : list (string * RouteSchema) :=
  [("x", Schema None None None (Some [("y", empty_schema)]) None None)].

(** [{x: {}}] *)
Definition schema_x : list (string * RouteSchema) :=
  [("x", empty_schema)].

(** [{x: {$exact: true, $children: {y: {}}}}] *)
Definition schema_x_exact_y : list (string * RouteSchema) :=
  [("x", Schema None None (Some true) (Some [("y", empty_schema)]) None None)].

(** [{first: {$match: 'a'}, second: {$match: 'a'}}]: both routes match
    [/a]. *)
Definition schema_ambiguous : list (string * RouteSchema) :=
  [("first", Schema (Some (RouteMatch.PString "a")) None None None None None);
   ("second", Schema (Some (RouteMatch.PString "a")) None None None None None)].

(** [{p: {$match: 'a', $children: {b: {}}}, q: {$match: 'a', $children: {c: {}}}}] *)
Definition schema_backtrack : list (string * RouteSchema) :=
  [("p", Schema (Some (RouteMatch.PString "a")) None None
           (Some [("b", empty_schema)]) None None);
   ("q", Schema (Some (RouteMatch.PString "a")) None None
           (Some [("c", empty_schema)]) None None)].

(** [{default: {$match: ''}, account: {$children: {id: {$match: RouteMatch.segment}}}}] *)
Definition schema_account : list (string * RouteSchema) :=
  [("default", Schema (Some (RouteMatch.PString "")) None None None None None);
   ("account", Schema None None None
      (Some [("id", Schema (Some RouteMatch.segment_pattern) None None None None None)])
      None None)].

Definition no_query (search : string) : list (string * string) := [].

Definition config_account : Router.Config :=
  {| Router._children := build schema_account;
     Router._groups := Build.groups_of (build schema_account);
     Router._prefix := "";
     Router._default := {| pathname := "/"; search := ""; hash := ""; object_id := 0 |};
     Router._parallel := ∅;
     Router.has_onLeave := false;
     Router.has_onChange := true |}.

Definition location_home : Location :=
  {| pathname := "/"; search := ""; hash := ""; object_id := 1 |}.

Definition location_account : Location :=
  {| pathname := "/account/42"; search := ""; hash := ""; object_id := 2 |}.

Definition location_account_again : Location :=
  {| pathname := "/account/42"; search := ""; hash := ""; object_id := 3 |}.

(** While a hook is awaited the location [location] arrives; then the
    hook gives [results]. *)
Definition arriving (location : Location) (results : list Router.HookReturn)
  : Router.Resumption :=
  {| Router.meanwhile := Router._onLocationChange location;
     Router.results := results |}.

(** Nothing else happens while the hook is awaited. *)
Definition quietly (results : list Router.HookReturn) : Router.Resumption :=
  {| Router.meanwhile := fun this => this; Router.results := results |}.

(** The entries of the chain of [/account/42]. *)
Definition entries_account : Router.EntryMap :=
  Router.new_EntryMap
    (default [] (match TreeMatch._match (build schema_account) "/account/42" with
                 | Normal result => result
                 | Throw _ => None
                 end)).


(** [/account/42] has been recorded and its chain published; nothing is
    committed yet. *)
Definition account_requested : Router.State :=
  Router.perform
    (Router.Publish
       {| Router.groupToMatchToMatchEntryMapMap := {[ None := Some entries_account ]};
          Router.queryDict := ∅;
          Router.pathMap := [(None, Some "/account/42")] |})
    (Router._onLocationChange location_account Router.initial).

(** The router of [schema_account] after [/account/42] has arrived, its
    update has begun, the two [beforeEnter] hooks have been answered and the
    chain is committed. *)
Definition account_committed : option Router.System :=
  system ← Router.begin_next config_account no_query
              (Router.deliver location_account Router.boot);
  system ← Router.answer 0 [Router.ReturnsUndefined] system;
  Router.answer 0 [Router.ReturnsTrue] system.

(** [{default: {$match: ''}, account: true, sidebar: {$group: 'sidebar'},
    popup: {$group: 'popup'}}] *)
Definition schema_groups : list (string * RouteSchema) :=
  [("default", Schema (Some (RouteMatch.PString "")) None None None None None);
   ("account", empty_schema);
   ("sidebar", Schema None None None None None (Some "sidebar"));
   ("popup", Schema None None None None None (Some "popup"))].

(** [account.$parallel({groups: ['sidebar']})] *)
Definition config_groups : Router.Config :=
  {| Router._children := build schema_groups;
     Router._groups := Build.groups_of (build schema_groups);
     Router._prefix := "";
     Router._default := {| pathname := "/"; search := ""; hash := ""; object_id := 0 |};
     Router._parallel :=
       {[ ["account"] :=
            {| RouteMatch.groups := Some ["sidebar"]; RouteMatch.matches := None |} ]};
     Router.has_onLeave := false;
     Router.has_onChange := true |}.

Definition search_groups : string := "?_sidebar=/sidebar&tab=1&_popup=/popup".

(** What [new URLSearchParams] gives for [search_groups]. *)
Definition params_groups (search : string) : list (string * string) :=
  if String.eqb search search_groups
  then [("_sidebar", "/sidebar"); ("tab", "1"); ("_popup", "/popup")]
  else [].

Definition location_groups : Location :=
  {| pathname := "/account"; search := search_groups; hash := ""; object_id := 4 |}.

(** [location_groups] has been recorded. *)
Definition groups_requested : Router.State :=
  Router._onLocationChange location_groups Router.initial.

(** The candidate source and the [_update] calls of the pipeline for
    [location_groups]. *)
Definition groups_source : Router.RouteSource :=
  match Router._asyncOnLocationChange config_groups params_groups location_groups
          groups_requested with
  | Router.Updates matchingSource _ => matchingSource
  | _ => Router.empty_source
  end.

Definition groups_updates : list (option string * Router.EntryMap) :=
  match Router._asyncOnLocationChange config_groups params_groups location_groups
          groups_requested with
  | Router.Updates _ updates => updates
  | _ => []
  end.


(** The router of [schema_groups] after [location_groups] has arrived and
    its updates have begun. *)
Definition groups_begun : option Router.System :=
  Router.begin_next config_groups params_groups
    (Router.deliver location_groups Router.boot).

(** An enhancer of services: the objects with an identity below 1000 are
    plain objects, and the observable copy of the one with the identity [n]
    has the identity [n + 1000]; the other objects are kept as they are. *)
Definition observable_copy (service : RouteMatch.IRouteService)
  : RouteMatch.IRouteService :=
  if Nat.ltb (RouteMatch.service_id service) 1000 then
    {| RouteMatch.service_id := RouteMatch.service_id service + 1000;
       RouteMatch.properties := RouteMatch.properties service |}
  else service.

End Examples.

(** * Properties *)

(** ** Strings *)

Section strings.

Import Utils.

Lemma append_empty (r : string) : "" +:+ r = r.
Proof. reflexivity. Qed.

Lemma append_String (c : ascii) (p r : string) :
  String c p +:+ r = String c (p +:+ r).
Proof. reflexivity. Qed.

Lemma startsWith_app (p r : string) : startsWith (p +:+ r) p = true.
Proof.
  induction p as [|c p IH]; [done|].
  rewrite append_String.
  change (Ascii.eqb c c && startsWith (p +:+ r) p = true).
  by rewrite Ascii.eqb_refl.
Qed.

Lemma startsWith_inv (s p : string) :
  startsWith s p = true -> exists r, s = p +:+ r.
Proof.
  revert s. induction p as [|c p IH]; intros s H.
  - exists s. reflexivity.
  - destruct s as [|d s]; [done|].
    change (Ascii.eqb c d && startsWith s p = true) in H.
    apply andb_true_iff in H as [Hc H]. apply Ascii.eqb_eq in Hc as ->.
    destruct (IH s H) as [r ->]. by exists r.
Qed.

Lemma slice_app (p r : string) : slice (p +:+ r) (String.length p) = r.
Proof.
  induction p as [|c p IH]; [by destruct r|].
  rewrite append_String. exact IH.
Qed.

Lemma slice_zero (s : string) : slice s 0 = s.
Proof. by destruct s. Qed.

Lemma string_length_app (p r : string) :
  String.length (p +:+ r) = String.length p + String.length r.
Proof.
  induction p as [|c p IH]; [done|].
  rewrite append_String. simpl. by rewrite IH.
Qed.

Lemma get_app_length (p r : string) :
  String.get (String.length p) (p +:+ r) = String.get 0 r.
Proof.
  induction p as [|c p IH]; [done|].
  rewrite append_String. exact IH.
Qed.

Lemma isSlashAt_app (p r : string) :
  isSlashAt (p +:+ r) (String.length p) = true <-> exists t, r = String "/" t.
Proof.
  unfold isSlashAt. rewrite get_app_length. destruct r as [|c t]; simpl.
  - split; [done | by intros [? ?]].
  - split.
    + intros H. apply Ascii.eqb_eq in H as ->. by exists t.
    + intros [t' [= -> _]]. apply Ascii.eqb_refl.
Qed.

(** The segment-boundary test, in words: [path] is [prefix] followed by
    nothing or by something that starts with a slash. *)
Lemma isPathPrefix_spec (path prefix : string) :
  isPathPrefix path prefix = true <->
  exists tail, path = prefix +:+ tail /\ (tail = "" \/ exists t, tail = String "/" t).
Proof.
  unfold isPathPrefix. rewrite andb_true_iff, orb_true_iff. split.
  - intros [Hs Hb]. destruct (startsWith_inv _ _ Hs) as [tail ->].
    exists tail. split; [done|]. destruct Hb as [Hl|Hsl].
    + left. apply Nat.eqb_eq in Hl. rewrite string_length_app in Hl.
      destruct tail; [done | simpl in Hl; lia].
    + right. by apply isSlashAt_app in Hsl.
  - intros (tail & -> & Ht). split; [apply startsWith_app|].
    destruct Ht as [->|Ht].
    + left. apply Nat.eqb_eq. rewrite string_length_app. simpl. lia.
    + right. by apply isSlashAt_app.
Qed.

Lemma isPathPrefix_rest (path prefix : string) :
  isPathPrefix path prefix = true ->
  path = prefix +:+ slice path (String.length prefix) /\
  Chains.well_formed (slice path (String.length prefix)).
Proof.
  intros H. apply isPathPrefix_spec in H as (tail & -> & Ht).
  rewrite slice_app. done.
Qed.

Lemma well_formed_cases (path : string) :
  Chains.well_formed path <->
  truthy path = false \/ startsWith path "/" = true.
Proof.
  unfold Chains.well_formed. split.
  - intros [->|[t ->]]; [by left | by right].
  - intros [H|H].
    + left. by destruct path.
    + right. destruct path as [|c t]; [done|].
      change (Ascii.eqb "/" c && startsWith t "" = true) in H.
      apply andb_true_iff in H as [Hc _]. apply Ascii.eqb_eq in Hc as <-.
      by exists t.
Qed.

End strings.

(** ** The single-node matcher *)

Section single_node.

Import Utils RouteMatch.

(** On a path with a leading slash the segment and the rest come from the
    pattern and the text after the slash. *)
Lemma match_segment_slash (this : RouteMatch.t) (remainder : string) :
  match_segment this (String "/" remainder) =
  match _matchPattern this with
  | PString pattern =>
      if testPathPrefix remainder pattern then
        Normal (Some pattern, slice remainder (String.length pattern))
      else Normal (None, "")
  | PRegExp exec =>
      match exec remainder with
      | Some matched =>
          if testPathPrefix remainder matched then
            Normal (Some matched, slice remainder (String.length matched))
          else Normal (None, "")
      | None => Normal (None, "")
      end
  end.
Proof.
  unfold match_segment. simpl. rewrite slice_zero.
  by destruct remainder.
Qed.

Lemma match_segment_empty (this : RouteMatch.t) :
  match_segment this "" = Normal (None, "").
Proof. done. Qed.

Lemma match_segment_throw (this : RouteMatch.t) (upperRest : string) :
  ~ Chains.well_formed upperRest ->
  match_segment this upperRest = Throw (ExpectingSlash upperRest).
Proof.
  intros H. unfold match_segment.
  destruct (truthy upperRest) eqn:Ht.
  - destruct (startsWith upperRest "/") eqn:Hs; [|done].
    exfalso. apply H, well_formed_cases. by right.
  - exfalso. apply H, well_formed_cases. by left.
Qed.

(** What is left after a segment is empty or starts with a slash. *)
Lemma match_segment_rest (this : RouteMatch.t) (upperRest : string) sr :
  match_segment this upperRest = Normal sr -> Chains.well_formed (snd sr).
Proof.
  destruct upperRest as [|c remainder].
  { intros [= <-]. by left. }
  destruct (decide (c = "/"%char)) as [->|Hc].
  - rewrite match_segment_slash.
    destruct (_matchPattern this) as [pattern|exec].
    + destruct (testPathPrefix remainder pattern) eqn:Hp; intros [= <-]; simpl.
      * by apply isPathPrefix_rest.
      * by left.
    + destruct (exec remainder) as [m|].
      * destruct (testPathPrefix remainder m) eqn:Hp; intros [= <-]; simpl.
        -- by apply isPathPrefix_rest.
        -- by left.
      * intros [= <-]. by left.
  - rewrite match_segment_throw; [done|].
    intros [?|[t [= ? ?]]]; congruence.
Qed.

Lemma _match_normal (this : RouteMatch.t) (upperRest : string) :
  Chains.well_formed upperRest ->
  exists r, RouteMatch._match this upperRest = Normal r.
Proof.
  intros Hwf. unfold RouteMatch._match.
  assert (exists sr, match_segment this upperRest = Normal sr) as [sr ->].
  { destruct Hwf as [->|[t ->]]; [by eexists|].
    rewrite match_segment_slash.
    destruct (_matchPattern this) as [pattern|exec].
    - destruct (testPathPrefix t pattern); by eexists.
    - destruct (exec t) as [m|]; [|by eexists].
      destruct (testPathPrefix t m); by eexists. }
  simpl. match goal with |- context [if ?b then _ else _] => destruct b end; by eexists.
Qed.

Lemma _match_rest (this : RouteMatch.t) (upperRest : string) r :
  RouteMatch._match this upperRest = Normal r -> Chains.well_formed (rest r).
Proof.
  unfold RouteMatch._match.
  destruct (match_segment this upperRest) as [sr|e] eqn:Hsr; simpl; [|done].
  apply match_segment_rest in Hsr.
  match goal with |- context [if ?b then _ else _] => destruct b end;
    by intros [= <-].
Qed.

End single_node.

(** ** The tree matcher *)

Section tree.

Import Utils RouteMatch Chains.

Lemma RouteMatch_ind_nested (P : RouteMatch.t -> Prop) :
  (forall name group id pattern allowExact children extension,
      match children with
      | Some cs => Forall P cs
      | None => True
      end ->
      P (RouteMatch.Build name group id pattern allowExact children extension)) ->
  forall routeMatch, P routeMatch.
Proof.
  intros step. fix IH 1. intros [name group id pattern allowExact children extension].
  apply step. destruct children as [cs|]; [|exact I].
  induction cs as [|c cs IHcs]; constructor; [apply IH | exact IHcs].
Qed.

Lemma _match_nil (path : string) : TreeMatch._match [] path = Normal None.
Proof. reflexivity. Qed.

Lemma _match_cons (routeMatch : RouteMatch.t) (siblings : list RouteMatch.t)
    (path : string) :
  TreeMatch._match (routeMatch :: siblings) path =
  r ← TreeMatch.visit routeMatch path;
  match r with
  | Some chain => Normal (Some chain)
  | None => TreeMatch._match siblings path
  end.
Proof. reflexivity. Qed.

Lemma visit_eq (routeMatch : RouteMatch.t) (path : string) :
  TreeMatch.visit routeMatch path =
  r ← RouteMatch._match routeMatch path;
  if negb (matched r) then Normal None
  else if exactlyMatched r then Normal (Some [entry_of routeMatch r true])
  else
    result ← TreeMatch._match (children_of routeMatch) (rest r);
    match result with
    | None => Normal None
    | Some chain => Normal (Some (entry_of routeMatch r false :: chain))
    end.
Proof.
  destruct routeMatch as [name group id pattern allowExact [cs|] extension]; reflexivity.
Qed.

Lemma Chain_nil (path : string) indexes chain : ~ Chain [] path indexes chain.
Proof. inversion 1; simplify_eq. Qed.

Lemma Chain_indexes children path indexes chain :
  Chain children path indexes chain -> exists i rest, indexes = i :: rest.
Proof. inversion 1; eauto. Qed.

Lemma Chain_skip routeMatch siblings path i indexes chain :
  Chain siblings path (i :: indexes) chain ->
  Chain (routeMatch :: siblings) path (S i :: indexes) chain.
Proof.
  inversion 1; subst.
  - by eapply Chain_exact.
  - by eapply Chain_step.
Qed.

Lemma Chain_later routeMatch siblings path i indexes chain :
  Chain (routeMatch :: siblings) path (S i :: indexes) chain ->
  Chain siblings path (i :: indexes) chain.
Proof.
  inversion 1; subst.
  - by eapply Chain_exact.
  - by eapply Chain_step.
Qed.

(** Going on with the siblings when no chain starts at the first child. *)
Lemma first_chain_skip routeMatch siblings path result :
  (forall indexes chain, ~ Chain (routeMatch :: siblings) path (0 :: indexes) chain) ->
  first_chain siblings path result ->
  first_chain (routeMatch :: siblings) path result.
Proof.
  intros Hnone. destruct result as [[chain|]|e]; simpl; [| |done].
  - intros (indexes & Hchain & Hmin).
    destruct (Chain_indexes _ _ _ _ Hchain) as (i & rest & ->).
    exists (S i :: rest). split; [by apply Chain_skip|].
    intros indexes' chain' Hchain'.
    destruct (Chain_indexes _ _ _ _ Hchain') as (j & rest' & ->).
    destruct j as [|j]; [by apply Hnone in Hchain'|].
    apply Chain_later in Hchain'. specialize (Hmin _ _ Hchain').
    simpl in *. destruct Hmin as [?|[? ?]]; [left; lia | right; split; [lia | done]].
  - intros Hno indexes chain Hchain.
    destruct (Chain_indexes _ _ _ _ Hchain) as (j & rest' & ->).
    destruct j as [|j]; [by apply Hnone in Hchain|].
    apply Chain_later in Hchain. by apply Hno in Hchain.
Qed.

Ltac same_result :=
  repeat match goal with
  | H : RouteMatch._match ?m ?p = Normal ?r,
    H' : RouteMatch._match ?m ?p = Normal ?r' |- _ =>
      rewrite H in H'; injection H' as <-
  end.

Lemma _match_first_chain_list (children : list RouteMatch.t) :
  Forall (fun routeMatch => forall path, well_formed path ->
            first_chain (children_of routeMatch) path
              (TreeMatch._match (children_of routeMatch) path)) children ->
  forall path, well_formed path ->
    first_chain children path (TreeMatch._match children path).
Proof.
  induction 1 as [|routeMatch siblings Hhead _ IH]; intros path Hwf.
  { rewrite _match_nil. intros ? ?. apply Chain_nil. }
  rewrite _match_cons, visit_eq.
  destruct (_match_normal routeMatch path Hwf) as [r Hr]. rewrite Hr. simpl.
  destruct (matched r) eqn:Hm; simpl.
  - destruct (exactlyMatched r) eqn:He; simpl.
    + exists [0]. split; [by eapply Chain_exact|].
      intros indexes' chain' Hchain'.
      inversion Hchain'; subst; simplify_eq/=.
      * destruct i; simplify_eq/=; lia.
      * destruct i; simplify_eq/=; [same_result; congruence | lia].
    + specialize (Hhead (rest r) (_match_rest _ _ _ Hr)).
      destruct (TreeMatch._match (children_of routeMatch) (rest r))
        as [[chain|]|e]; simpl in *; [| |done].
      * destruct Hhead as (indexes & Hchain & Hmin).
        exists (0 :: indexes). split; [by eapply Chain_step|].
        intros indexes' chain' Hchain'.
        inversion Hchain'; subst; simplify_eq/=.
        -- destruct i; simplify_eq/=; [same_result; congruence | lia].
        -- destruct i; simplify_eq/=; [|lia].
           same_result. right. split; [done|]. by eapply Hmin.
      * apply first_chain_skip; [|by apply IH].
        intros indexes chain Hchain.
        inversion Hchain; subst; simplify_eq/=; same_result; [congruence|].
        by eapply Hhead.
  - apply first_chain_skip; [|by apply IH].
    intros indexes chain Hchain.
    inversion Hchain; subst; simplify_eq/=; same_result; congruence.
Qed.

Lemma _match_first_chain_below (routeMatch : RouteMatch.t) (path : string) :
  well_formed path ->
  first_chain (children_of routeMatch) path
    (TreeMatch._match (children_of routeMatch) path).
Proof.
  revert path. induction routeMatch
    as [name group id pattern allowExact [cs|] extension IH]
    using RouteMatch_ind_nested; intros path Hwf.
  - by apply _match_first_chain_list.
  - intros ? ?. apply Chain_nil.
Qed.

Lemma _match_first_chain (children : list RouteMatch.t) (path : string) :
  well_formed path ->
  first_chain children path (TreeMatch._match children path).
Proof.
  apply _match_first_chain_list, Forall_forall.
  intros routeMatch _ p. apply _match_first_chain_below.
Qed.

End tree.

(** ** Claims about matching *)

Section matching_claims.

Import Utils RouteMatch Chains.

(** C2. The single-node matcher returns [exactlyMatched = matched && rest
    === ''], and when the segment was found with nothing left but the node
    has children and was not declared exact, both flags are false; it throws
    only on a path that is neither empty nor starts with a slash.  For the
    schema [{x: {$children: {y: {}}}}] the path [/x/y] matches [y] exactly,
    and [/x] matches a node with the literal [x] exactly if and only if the
    node has no children or declares [$exact]. *)
Theorem C2_exact_and_demotion :
  (forall (this : RouteMatch.t) (upperRest : string),
      match RouteMatch._match this upperRest with
      | Normal r =>
          let found := bool_decide (segment r <> None) in
          let consumed := found && bool_decide (rest r = "") in
          exactlyMatched r = matched r && bool_decide (rest r = "") /\
          (if consumed && bool_decide (_children this <> None) && negb (_allowExact this)
           then matched r = false /\ exactlyMatched r = false
           else matched r = found /\ exactlyMatched r = consumed)
      | Throw _ => ~ well_formed upperRest
      end) /\
  TreeMatch._match (Examples.build Examples.schema_x_y) "/x/y" =
    Normal (Some [ {| entry_match := ["x"]; entry_exact := false; entry_segment := "x" |};
                   {| entry_match := ["x"; "y"]; entry_exact := true; entry_segment := "y" |} ]) /\
  (forall name group id literal allowExact children extension,
      let this := RouteMatch.Build name group id (PString literal) allowExact children extension in
      let exact := bool_decide (children = None) || allowExact in
      RouteMatch._match this (String "/" literal) =
        Normal {| matched := exact; exactlyMatched := exact;
                  segment := Some literal; rest := "" |}) /\
  TreeMatch._match (Examples.build Examples.schema_x_y) "/x" = Normal None /\
  TreeMatch._match (Examples.build Examples.schema_x) "/x" =
    Normal (Some [ {| entry_match := ["x"]; entry_exact := true; entry_segment := "x" |} ]) /\
  TreeMatch._match (Examples.build Examples.schema_x_exact_y) "/x" =
    Normal (Some [ {| entry_match := ["x"]; entry_exact := true; entry_segment := "x" |} ]).
Proof.
  split; [|split; [reflexivity|split; [|by repeat split]]].
  - intros this upperRest. unfold RouteMatch._match.
    destruct (match_segment this upperRest) as [[seg rst]|e] eqn:Hsr; simpl.
    + destruct (bool_decide (seg <> None)) eqn:E1, (bool_decide (rst = "")) eqn:E2,
        (bool_decide (_children this <> None)) eqn:E3, (_allowExact this) eqn:E4;
        simpl; rewrite ?E1, ?E2, ?E3, ?E4; done.
    + intros Hwf. destruct Hwf as [->|[t ->]]; [done|].
      rewrite match_segment_slash in Hsr.
      destruct (_matchPattern this) as [pattern|exec].
      * by destruct (testPathPrefix t pattern).
      * destruct (exec t) as [m|]; [|done]. by destruct (testPathPrefix t m).
  - intros name group id literal allowExact children extension this exact.
    unfold RouteMatch._match. rewrite match_segment_slash. simpl.
    assert (testPathPrefix literal literal = true) as ->.
    { apply isPathPrefix_spec. exists "". split; [|by left].
      clear. induction literal as [|c l IH]; [done|].
      rewrite append_String. by rewrite <- IH. }
    assert (slice literal (String.length literal) = "") as ->.
    { clear. induction literal as [|c l IH]; [done | exact IH]. }
    simpl. subst exact.
    destruct children as [cs|], allowExact; simpl; done.
Qed.

(** C8. For a node with a literal pattern and a path [/remainder]: the
    segment is found if and only if [remainder] is the literal followed by
    nothing or by a slash; the segment is then the literal and [rest] is what
    follows it in [remainder]; and [matched] is reported unless nothing is
    left and the node has children without [$exact]. *)
Theorem C8_literal_segment_boundary (this : RouteMatch.t)
    (literal remainder : string) :
  _matchPattern this = PString literal ->
  exists r,
    RouteMatch._match this (String "/" remainder) = Normal r /\
    (segment r <> None <->
       exists tail, remainder = literal +:+ tail /\
                    (tail = "" \/ exists t, tail = String "/" t)) /\
    (segment r <> None ->
       segment r = Some literal /\ remainder = literal +:+ rest r) /\
    (matched r = true <->
       segment r <> None /\
       ~ (rest r = "" /\ _children this <> None /\ _allowExact this = false)).
Proof.
  intros Hpattern. unfold RouteMatch._match.
  rewrite match_segment_slash, Hpattern.
  destruct (testPathPrefix remainder literal) eqn:Hprefix; simpl.
  - destruct (isPathPrefix_rest _ _ Hprefix) as [Hrem _].
    apply isPathPrefix_spec in Hprefix.
    set (rst := slice remainder (String.length literal)) in *.
    destruct (bool_decide (rst = "")) eqn:Hrst;
      destruct (bool_decide (_children this <> None)) eqn:Hch;
      destruct (_allowExact this) eqn:Hex; simpl;
      eexists; (split; [reflexivity|]); simpl;
      try apply bool_decide_eq_true in Hrst;
      try apply bool_decide_eq_false in Hrst;
      try apply bool_decide_eq_true in Hch;
      try apply bool_decide_eq_false in Hch;
      (split; [done|]); (split; [done|]); split; try done;
      try (intros _; split; [done|]; intros (? & ? & ?); done).
    intros [_ Hno]. exfalso. by apply Hno.
  - eexists. split; [reflexivity|]. simpl. split; [|split; [done|]].
    + split; [done|]. intros Hex. apply isPathPrefix_spec in Hex.
      unfold testPathPrefix in Hprefix. congruence.
    + split; [done|]. by intros [? _].
Qed.

Lemma C8_literal_segment_boundary_witness :
  exists r,
    RouteMatch._match (RouteMatch.Build "x" None ["x"] (PString "x") false None [])
      "/x/y" = Normal r /\
    rest r = "/y".
Proof.
  destruct (C8_literal_segment_boundary
              (RouteMatch.Build "x" None ["x"] (PString "x") false None [])
              "x" "x/y" eq_refl) as (r & Hr & _).
  exists r. split; [exact Hr|].
  vm_compute in Hr. injection Hr as <-. reflexivity.
Defined.

(** C3. The tree matcher takes the children in declaration order: a child
    that does not match is skipped; a child matched exactly gives the chain
    of its one entry; a child matched not exactly is entered with the rest of
    the path, and the next sibling is tried when nothing is found below it.
    On a path that is empty or starts with a slash the result is the first
    complete chain in declaration order, [undefined] when there is none, and
    never an error, also when several chains exist. *)
Theorem C3_first_chain_in_declaration_order :
  (forall path, TreeMatch._match [] path = Normal None) /\
  (forall routeMatch siblings path,
      TreeMatch._match (routeMatch :: siblings) path =
      r ← RouteMatch._match routeMatch path;
      if negb (matched r) then TreeMatch._match siblings path
      else if exactlyMatched r then Normal (Some [entry_of routeMatch r true])
      else
        result ← TreeMatch._match (children_of routeMatch) (rest r);
        match result with
        | Some chain => Normal (Some (entry_of routeMatch r false :: chain))
        | None => TreeMatch._match siblings path
        end) /\
  (forall children path,
      well_formed path ->
      first_chain children path (TreeMatch._match children path)) /\
  TreeMatch._match (Examples.build Examples.schema_ambiguous) "/a" =
    Normal (Some [ {| entry_match := ["first"]; entry_exact := true; entry_segment := "a" |} ]) /\
  TreeMatch._match (Examples.build Examples.schema_backtrack) "/a/c" =
    Normal (Some [ {| entry_match := ["q"]; entry_exact := false; entry_segment := "a" |};
                   {| entry_match := ["q"; "c"]; entry_exact := true; entry_segment := "c" |} ]).
Proof.
  split; [done|]. split; [|split; [apply _match_first_chain | by split]].
  intros routeMatch siblings path. rewrite _match_cons, visit_eq.
  destruct (RouteMatch._match routeMatch path) as [r|e]; simpl; [|done].
  destruct (matched r); simpl; [|done].
  destruct (exactlyMatched r); simpl; [done|].
  by destruct (TreeMatch._match (children_of routeMatch) (rest r)) as [[chain|]|e].
Qed.

Lemma C3_first_chain_in_declaration_order_witness :
  first_chain (Examples.build Examples.schema_backtrack) "/a/c"
    (TreeMatch._match (Examples.build Examples.schema_backtrack) "/a/c").
Proof.
  apply (proj1 (proj2 (proj2 C3_first_chain_in_declaration_order))).
  right. exists "a/c". reflexivity.
Defined.

(** C10. The rest returned by the single-node matcher is empty or starts
    with a slash; hence the tree matcher, started on a path that is empty or
    starts with a slash, never reaches the error of the single-node matcher,
    which is thrown exactly on the other paths.  The primary path the
    pipeline starts the tree matcher on is such a path. *)
Theorem C10_rest_well_formed :
  (forall this upperRest r,
      RouteMatch._match this upperRest = Normal r -> well_formed (rest r)) /\
  (forall this upperRest,
      (exists e, RouteMatch._match this upperRest = Throw e) <->
      ~ well_formed upperRest) /\
  (forall children path,
      well_formed path ->
      exists result, TreeMatch._match children path = Normal result) /\
  (forall pathname prefix,
      testPathPrefix pathname prefix = true ->
      well_formed (Router.pathWithoutPrefix pathname prefix)).
Proof.
  split; [apply _match_rest|]. split; [|split].
  - intros this upperRest. split.
    + intros [e He] Hwf. destruct (_match_normal this upperRest Hwf) as [r Hr].
      congruence.
    + intros Hwf. exists (ExpectingSlash upperRest).
      unfold RouteMatch._match. by rewrite match_segment_throw.
  - intros children path Hwf.
    pose proof (_match_first_chain children path Hwf) as H.
    destruct (TreeMatch._match children path) as [result|e]; [by exists result | done].
  - intros pathname prefix Hprefix. unfold Router.pathWithoutPrefix.
    destruct (isPathPrefix_rest _ _ Hprefix) as [_ Hwf].
    destruct (truthy (slice pathname (String.length prefix))); [done|].
    right. by exists "".
Qed.

Lemma C10_rest_well_formed_witness :
  exists result,
    TreeMatch._match (Examples.build Examples.schema_x_y) "/x/y" = Normal result.
Proof.
  apply (proj1 (proj2 (proj2 C10_rest_well_formed))).
  right. exists "x/y". reflexivity.
Defined.

End matching_claims.

(** ** The service of a route *)

Section service.

Import RouteMatch.

Lemma service_inv_init (observable : IRouteService -> IRouteService)
    (factory : RouteServiceFactory) :
  service_inv observable factory (with_service factory).
Proof. split; [done|]. left. done. Qed.

Lemma service_inv_event (observable : IRouteService -> IRouteService)
    (factory : RouteServiceFactory) (this : state) (event : Event) :
  factory 0 <> Throws ->
  service_inv observable factory this ->
  service_inv observable factory (after_event observable this event).
Proof.
  intros Hno [Hf Hcases]. destruct event as [| |matched exactlyMatched]; simpl.
  - unfold _getService.
    destruct Hcases as [(He & Hs & Hp)|(He & [(service & H0 & Hs & Hp)|
      (outcome & done & H0 & Hp & Hs)])].
    + rewrite Hs, Hp, Hf, He.
      destruct (factory 0) as [service| |outcome] eqn:H0; simpl; [|done|].
      * split; [done|]. right. split; [done|]. left. by exists service.
      * split; [done|]. right. split; [done|]. right. by exists outcome, false.
    + rewrite Hs. simpl. split; [done|]. right. split; [done|]. left.
      by exists service.
    + rewrite Hs, Hp. destruct done, outcome; simpl;
        (split; [done|]); right; (split; [done|]); right;
        eexists _, _; by rewrite Hp, Hs.
  - unfold settle.
    destruct Hcases as [(He & Hs & Hp)|(He & [(service & H0 & Hs & Hp)|
      (outcome & done & H0 & Hp & Hs)])].
    + rewrite Hp. split; [done|]. by left.
    + rewrite Hp. split; [done|]. right. split; [done|]. left. by exists service.
    + rewrite Hp. simpl. destruct done; simpl.
      * split; [done|]. right. split; [done|]. right.
        exists outcome, true. by rewrite Hp, Hs.
      * split; [done|]. right. split; [done|]. right. by exists outcome, true.
  - split; [done|].
    destruct Hcases as [?|(He & [(service & ? & ? & ?)|(outcome & done & ? & ? & ?)])].
    + by left.
    + right. split; [done|]. left. by exists service.
    + right. split; [done|]. right. by exists outcome, done.
Qed.

Lemma service_inv_events (observable : IRouteService -> IRouteService)
    (factory : RouteServiceFactory) (events : list Event) (this : state) :
  factory 0 <> Throws ->
  service_inv observable factory this ->
  service_inv observable factory (after_events observable this events).
Proof.
  intros Hno. revert this. induction events as [|event events IH]; intros this Hinv.
  - exact Hinv.
  - apply IH. by apply service_inv_event.
Qed.

(** A service that is a plain object is stored as its observable copy: the
    access that runs the factory gives the object of the factory, the next
    one the copy. *)
Lemma plain_service_is_stored_as_a_copy :
  let service := {| service_id := 1; properties := ∅ |} in
  let factory : RouteServiceFactory := fun _ => ReturnsService service in
  let first := _getService Examples.observable_copy (with_service factory) in
  let second := _getService Examples.observable_copy first.1 in
  first.2 = TheService service /\
  second.2 = TheService (Examples.observable_copy service) /\
  Examples.observable_copy service <> service /\
  executions second.1 = 1.
Proof. by repeat split. Qed.

(** C6 as stated does not hold: the body of a factory that throws is
    executed again at the next access. *)
Lemma C6_factory_once_counterexample :
  ~ (forall (observable : IRouteService -> IRouteService)
            (factory : RouteServiceFactory) (events : list Event),
        executions (after_events observable (with_service factory) events) <= 1).
Proof.
  intros H. specialize (H (fun service => service) (fun _ => Throws) [Access; Access]).
  vm_compute in H. lia.
Qed.

(** C6, amended.  For a route whose service factory does not throw at its
    first execution: whatever accesses, settlements of the promise and
    updates of the flags (leaving, entering again) the route has gone
    through, the body of the factory has been executed at most once, and a
    further access leaves it executed exactly once in all.  What the route
    has stored, if anything, is the value the field keeps for the one
    service that this execution produced.  An access that finds nothing
    stored yields in the end that one service, through the promise made by
    that one execution for as long as nothing is stored.  An access that
    finds a service stored gives the stored service and changes nothing. *)
Theorem C6_factory_once (observable : IRouteService -> IRouteService)
    (factory : RouteServiceFactory) (events : list Event) :
  factory 0 <> Throws ->
  let before := after_events observable (with_service factory) events in
  let this := fst (_getService observable before) in
  let result := snd (_getService observable before) in
  executions before <= 1 /\
  executions this = 1 /\
  (_service this = None \/ _service this = observable <$> service_of (factory 0)) /\
  (_service before = None ->
   eventual this result = service_of (factory 0) /\
   (_service this = None -> result = ThePromise 0)) /\
  (forall stored,
      _service before = Some stored -> this = before /\ result = TheService stored).
Proof.
  intros Hno before this result.
  pose proof (service_inv_events observable factory events _ Hno
                (service_inv_init observable factory))
    as [Hf Hcases].
  fold before in Hf, Hcases. subst this result. unfold _getService.
  destruct Hcases as [(He & Hs & Hp)|(He & [(service & H0 & Hs & Hp)|
    (outcome & done & H0 & Hp & Hs)])].
  - rewrite Hs, Hp, Hf, He.
    destruct (factory 0) as [service| |outcome] eqn:H0; simpl; [|done|];
      repeat split; intros; simplify_eq/=;
      first [done | lia | by left | by right].
  - rewrite Hs. simpl. rewrite He, Hs, H0. simpl.
    repeat split; intros; simplify_eq/=; first [done | lia | by left | by right].
  - rewrite Hs, Hp, He, H0. destruct done, outcome as [service|]; simpl;
      rewrite ?Hp, ?Hs, ?He; simpl;
      repeat split; intros; simplify_eq/=;
      first [done | lia | by left | by right].
Qed.

Lemma C6_factory_once_witness :
  let factory : RouteServiceFactory :=
    fun _ => ReturnsPromise (Some {| service_id := 7; properties := ∅ |}) in
  let before :=
    after_events Examples.observable_copy (with_service factory)
      [Access; Update true true; Access; Settle;
       Update false false; Update true true] in
  executions (fst (_getService Examples.observable_copy before)) = 1.
Proof.
  intros factory before.
  apply (C6_factory_once Examples.observable_copy factory
           [Access; Update true true; Access; Settle;
            Update false false; Update true true]).
  discriminate.
Defined.

(** What the getter of an extension key does give. *)
Lemma extension_get_cases (this : state) (key : string) (defaultValue : Value) :
  extension_get this key defaultValue =
  match _matched this, _service this with
  | true, Some service => property service key
  | _, _ => defaultValue
  end.
Proof. unfold extension_get. by destruct (_matched this), (_service this). Qed.

(** C7.  The getter at a matched route whose service has no property of
    the key: the value is [undefined], not the default of the schema. *)
Theorem C7_extension_without_property :
  let service := {| service_id := 1; properties := ∅ |} in
  let this :=
    {| _matched := true; _exactlyMatched := true; _service := Some service;
       _servicePromise := None; _serviceFactory := None; executions := 0 |} in
  properties service !! "tick" = None /\
  extension_get this "tick" (VNum 0) = VUndefined /\
  extension_get this "tick" (VNum 0) <> VNum 0.
Proof. by repeat split. Qed.

End service.

(** ** Running the updates *)

Section running.

Import Utils Router.

Lemma run_unfold (p : Proc) (this : State) (script : list Resumption) :
  run p this script =
  let '(this1, trace1, p1) := run_sync p this in
  match p1 with
  | Await hook m k =>
      match script with
      | [] => (this1, trace1, Suspended p1)
      | r :: script' =>
          let '(this2, trace2, status) :=
            run (k (results r)) (meanwhile r this1) script' in
          (this2, trace1 ++ Awaited hook m :: trace2, status)
      end
  | _ => (this1, trace1, Finished)
  end.
Proof. destruct script; reflexivity. Qed.

Lemma run_Done (this : State) (script : list Resumption) :
  run Done this script = (this, [], Finished).
Proof. by rewrite run_unfold. Qed.

Lemma run_Get (k : State -> Proc) (this : State) (script : list Resumption) :
  run (Get k) this script = run (k this) this script.
Proof. by rewrite !run_unfold. Qed.

Lemma run_Perform (action : Action) (k : Proc) (this : State)
    (script : list Resumption) :
  run (Perform action k) this script =
  let '(this', trace, status) := run k (perform action this) script in
  (this', Did action :: trace, status).
Proof.
  rewrite !run_unfold. simpl.
  destruct (run_sync k (perform action this)) as [[this1 trace1] p1].
  destruct p1; try done. destruct script as [|r script]; [done|].
  by destruct (run (k0 (results r)) (meanwhile r this1) script) as [[? ?] ?].
Qed.

Lemma run_Await (hook : HookKind) (m : NodeId) (k : list HookReturn -> Proc)
    (this : State) (r : Resumption) (script : list Resumption) :
  run (Await hook m k) this (r :: script) =
  let '(this', trace, status) := run (k (results r)) (meanwhile r this) script in
  (this', Awaited hook m :: trace, status).
Proof. reflexivity. Qed.

Lemma run_perform_all (actions : list Action) (k : Proc) (this : State)
    (script : list Resumption) :
  run (perform_all actions k) this script =
  let '(this', trace, status) :=
    run k (fold_left (fun this action => perform action this) actions this) script in
  (this', map Did actions ++ trace, status).
Proof.
  revert this. induction actions as [|action actions IH]; intros this; simpl.
  - by destruct (run k this script) as [[? ?] ?].
  - rewrite run_Perform, IH.
    by destruct (run k _ script) as [[? ?] ?].
Qed.

Section loops.

Variable config : Config.
Variable nextLocation : Location.

(** The results of a [before] hook arrive and stop the update: silently
    when the location is out of date, with a revert when it is not and a
    result is [false]. *)
Lemma run_before_loop_stop (hooks : list (HookKind * NodeId)) (k : Proc)
    (pre : list Resumption) (this before : State) (r : Resumption)
    (post : list Resumption) :
  approved nextLocation this pre = Some before ->
  length pre < length hooks ->
  _isNextLocationOutDated (meanwhile r before) nextLocation
    || negb (before_result (results r)) = true ->
  run (before_loop config nextLocation hooks k) this (pre ++ r :: post) =
  let now := meanwhile r before in
  if _isNextLocationOutDated now nextLocation then
    (now, awaited (take (S (length pre)) hooks), Finished)
  else
    let location := default (_default config) (_location now) in
    (perform (HistoryReplace location) now,
     awaited (take (S (length pre)) hooks) ++ [Did (HistoryReplace location)],
     Finished).
Proof.
  revert pre this. induction hooks as [|[hook m] hooks IH]; intros pre this Hpre Hlen Hstop.
  { simpl in Hlen. lia. }
  destruct pre as [|r0 pre]; simpl in Hpre.
  - injection Hpre as <-. simpl app. simpl before_loop. rewrite run_Await, run_Get.
    simpl. destruct (_isNextLocationOutDated (meanwhile r this) nextLocation) eqn:Hout.
    + by rewrite run_Done.
    + simpl in Hstop. rewrite Hstop. unfold _revert.
      by rewrite run_Get, run_Perform, run_Done.
  - destruct (_isNextLocationOutDated (meanwhile r0 this) nextLocation) eqn:Hout;
      [done|].
    destruct (before_result (results r0)) eqn:Hres; [|done]. simpl in Hpre.
    simpl app. simpl before_loop. rewrite run_Await, run_Get.
    rewrite Hout, Hres. simpl negb. cbv iota.
    rewrite (IH pre (meanwhile r0 this) Hpre); [|simpl in Hlen; lia|done].
    simpl. by destruct (_isNextLocationOutDated (meanwhile r before) nextLocation).
Qed.

(** Every hook of the loop is approved: the update goes on after it. *)
Lemma run_before_loop_all (hooks : list (HookKind * NodeId)) (k : Proc)
    (pre : list Resumption) (this before : State) (post : list Resumption) :
  approved nextLocation this pre = Some before ->
  length pre = length hooks ->
  run (before_loop config nextLocation hooks k) this (pre ++ post) =
  let '(this', trace, status) := run k before post in
  (this', awaited hooks ++ trace, status).
Proof.
  revert pre this. induction hooks as [|[hook m] hooks IH]; intros pre this Hpre Hlen.
  - destruct pre; [|done]. injection Hpre as <-. simpl.
    by destruct (run k this post) as [[? ?] ?].
  - destruct pre as [|r0 pre]; [done|]. simpl in Hpre.
    destruct (_isNextLocationOutDated (meanwhile r0 this) nextLocation) eqn:Hout;
      [done|].
    destruct (before_result (results r0)) eqn:Hres; [|done]. simpl in Hpre.
    simpl app. simpl before_loop. rewrite run_Await, run_Get.
    rewrite Hout, Hres. simpl negb. cbv iota.
    rewrite (IH pre (meanwhile r0 this) Hpre); [|simpl in Hlen; lia].
    by destruct (run k before post) as [[? ?] ?].
Qed.

Lemma approved_app (pre1 pre2 : list Resumption) (this : State) :
  approved nextLocation this (pre1 ++ pre2) =
  approved nextLocation this pre1 ≫= fun this' => approved nextLocation this' pre2.
Proof.
  revert this. induction pre1 as [|r pre1 IH]; intros this; simpl; [done|].
  by destruct (_ || _).
Qed.

(** The same for the two loops of [_update], one after the other. *)
Lemma run_before_loops_stop (leaving entering : list (HookKind * NodeId))
    (k : Proc) (pre : list Resumption) (this before : State) (r : Resumption)
    (post : list Resumption) :
  approved nextLocation this pre = Some before ->
  length pre < length (leaving ++ entering) ->
  _isNextLocationOutDated (meanwhile r before) nextLocation
    || negb (before_result (results r)) = true ->
  run (before_loop config nextLocation leaving
         (before_loop config nextLocation entering k)) this (pre ++ r :: post) =
  let now := meanwhile r before in
  if _isNextLocationOutDated now nextLocation then
    (now, awaited (take (S (length pre)) (leaving ++ entering)), Finished)
  else
    let location := default (_default config) (_location now) in
    (perform (HistoryReplace location) now,
     awaited (take (S (length pre)) (leaving ++ entering))
       ++ [Did (HistoryReplace location)],
     Finished).
Proof.
  intros Hpre Hlen Hstop.
  destruct (decide (length pre < length leaving)) as [Hlt|Hge].
  - rewrite (run_before_loop_stop leaving _ pre this before r post Hpre Hlt Hstop).
    rewrite take_app_le by lia. done.
  - rewrite <- (take_drop (length leaving) pre) in Hpre |- * at 1.
    rewrite approved_app in Hpre.
    destruct (approved nextLocation this (take (length leaving) pre))
      as [middle|] eqn:Hfirst; [|done]. simpl in Hpre.
    rewrite <- app_assoc.
    rewrite (run_before_loop_all leaving _ _ this middle _ Hfirst)
      by (rewrite length_take; lia).
    rewrite length_app in Hlen.
    rewrite (run_before_loop_stop entering k _ middle before r post Hpre)
      by (rewrite ?length_drop; lia || done).
    rewrite length_drop.
    replace (S (length pre)) with (length leaving + S (length pre - length leaving))
      by lia.
    rewrite take_app_add'; [|done]. unfold awaited. rewrite map_app.
    simpl. destruct (_isNextLocationOutDated (meanwhile r before) nextLocation);
      [done|]. by rewrite <- app_assoc.
Qed.

Lemma run__update (group : option string) (matchToMatchEntryMap : EntryMap)
    (this : State) (script : list Resumption) :
  run (_update config nextLocation group matchToMatchEntryMap) this script =
  let this0 := prepared this group in
  let '(this', trace, status) :=
    run (before_loop config nextLocation
           (map (fun m => (BeforeLeave, m))
              (reversedLeavingMatches this0 group matchToMatchEntryMap))
        (before_loop config nextLocation
           (map (before_hook (previousMatchSet this0 group))
              (enteringAndUpdatingMatchSet config this0 group matchToMatchEntryMap))
        (Perform (SetLocation nextLocation)
        (Perform (Commit group)
        (update_loop
           (map (fun m => (m, (false, false)))
              (reversedLeavingMatches this0 group matchToMatchEntryMap))
        (update_loop
           (map (fun m => (m, (true, exact_in matchToMatchEntryMap m)))
              (nextMatchSet matchToMatchEntryMap))
        (after_loop
           (map (fun m => (AfterLeave, m))
              (reversedLeavingMatches this0 group matchToMatchEntryMap))
        (after_loop
           (map (after_hook (previousMatchSet this0 group))
              (enteringAndUpdatingMatchSet config this0 group matchToMatchEntryMap))
         Done)))))))) this0 script in
  (this', map Did (ensure_entry_map this group) ++ trace, status).
Proof.
  unfold _update. rewrite run_Get, run_perform_all, run_Get. reflexivity.
Qed.

End loops.

End running.

(** ** Claims about the transition pipeline *)

Section pipeline_claims.

Import Utils Router.

Lemma own_actions_app (a b : list Occurrence) :
  own_actions (a ++ b) = own_actions a ++ own_actions b.
Proof. apply omap_app. Qed.

Lemma own_actions_Did (actions : list Action) : own_actions (map Did actions) = actions.
Proof. induction actions as [|a actions IH]; simpl; [done | by rewrite IH]. Qed.

Lemma own_actions_awaited (hooks : list (HookKind * NodeId)) :
  own_actions (awaited hooks) = [].
Proof. by induction hooks. Qed.

Lemma replaced_app (a b : list Occurrence) :
  replaced (a ++ b) = replaced a ++ replaced b.
Proof. apply omap_app. Qed.

Lemma replaced_awaited (hooks : list (HookKind * NodeId)) :
  replaced (awaited hooks) = [].
Proof. by induction hooks. Qed.

Lemma replaced_ensure (this : State) (group : option string) :
  replaced (map Did (ensure_entry_map this group)) = [].
Proof. unfold ensure_entry_map. by destruct (mjoin _). Qed.


(** The state [Examples.account_requested] is the one in which the pipeline
    calls [_update] for [/account/42] on a new router. *)
Lemma account_requested_published :
  exists matchingSource,
    _asyncOnLocationChange Examples.config_account Examples.no_query
      Examples.location_account
      (_onLocationChange Examples.location_account initial)
    = Updates matchingSource [(None, Examples.entries_account)] /\
    Examples.account_requested =
      perform (Publish matchingSource)
        (_onLocationChange Examples.location_account initial).
Proof. eexists. split; [by vm_compute | reflexivity]. Qed.

(** C4.  An update awaits its [before] hooks one by one.  When the
    results of one of them arrive and another location has been recorded
    since, the update ends there, whatever the results are: nothing more is
    awaited, the state is the one found at that moment, and all the update
    has performed is the set-up of the entry map of its group: no commit, no
    change of a flag, no [replace]. *)
Theorem C4_superseded_update_is_abandoned (config : Config)
    (nextLocation : Location) (group : option string)
    (matchToMatchEntryMap : EntryMap) (this before : State)
    (pre : list Resumption) (r : Resumption) (post : list Resumption) :
  let this0 := prepared this group in
  let hooks := before_hooks config this0 group matchToMatchEntryMap in
  length pre < length hooks ->
  approved nextLocation this0 pre = Some before ->
  _isNextLocationOutDated (meanwhile r before) nextLocation = true ->
  let '(after, trace, status) :=
    run (_update config nextLocation group matchToMatchEntryMap) this
      (pre ++ r :: post) in
  status = Finished /\
  after = meanwhile r before /\
  trace = map Did (ensure_entry_map this group)
            ++ awaited (take (S (length pre)) hooks) /\
  own_actions trace = ensure_entry_map this group /\
  replaced trace = [].
Proof.
  intros this0 hooks Hlen Hpre Hout. rewrite run__update. cbv zeta.
  subst this0 hooks. unfold before_hooks in Hlen.
  rewrite (run_before_loops_stop config nextLocation _ _ _ pre _ before r post
             Hpre Hlen) by (by rewrite Hout).
  cbv zeta. rewrite Hout.
  fold (before_hooks config (prepared this group) group matchToMatchEntryMap).
  repeat split.
  - by rewrite own_actions_app, own_actions_Did, own_actions_awaited, app_nil_r.
  - by rewrite replaced_app, replaced_ensure, replaced_awaited.
Qed.

Lemma C4_superseded_update_is_abandoned_witness :
  let '(after, trace, status) :=
    run (_update Examples.config_account Examples.location_account None
           Examples.entries_account)
      Examples.account_requested
      ([] ++ Examples.arriving Examples.location_home [ReturnsFalse] :: []) in
  status = Finished /\ replaced trace = [] /\
  after = _onLocationChange Examples.location_home
            (prepared Examples.account_requested None).
Proof.
  pose proof (C4_superseded_update_is_abandoned Examples.config_account
                Examples.location_account None Examples.entries_account
                Examples.account_requested
                (prepared Examples.account_requested None)
                [] (Examples.arriving Examples.location_home [ReturnsFalse]) [])
    as H.
  cbv zeta in H.
  specialize (H ltac:(vm_compute; lia) eq_refl ltac:(vm_compute; reflexivity)).
  destruct (run _ _ _) as [[after trace] status].
  destruct H as (H1 & H2 & _ & _ & H5). by repeat split.
Defined.





(** What [_revert] hands to the history is the location committed when it
    is called.  When an update of the same transition has committed by then,
    that is the location being cancelled: below, [/account] arrives with the
    paths of two groups; the update of the group [popup], whose chain is not
    whitelisted, has nothing to await and commits at once; the [beforeEnter]
    hook of [account] then answers [false], and [replace] is called with the
    new location. *)
Lemma cancel_after_a_commit_of_the_transition :
  exists begun cancelled,
    Examples.groups_begun = Some begun /\
    _location (state begun) = Some Examples.location_groups /\
    answer 0 [ReturnsFalse] begun = Some cancelled /\
    replace_calls (state cancelled) = [Examples.location_groups].
Proof. eexists _, _. by vm_compute. Qed.



End pipeline_claims.

(** ** The flags of the routes *)

Section flags.

Import Utils Router.

Lemma consistent_same_flags (this this' : State) :
  flags this' = flags this -> consistent this -> consistent this'.
Proof.
  intros Hflags Hcons m. unfold exact_flag, matched_flag. rewrite Hflags.
  apply Hcons.
Qed.

Lemma consistent_initial : consistent initial.
Proof. intros m. unfold exact_flag. simpl. by rewrite lookup_empty. Qed.

Lemma consistent_perform (action : Action) (this : State) :
  regular action -> consistent this -> consistent (perform action this).
Proof.
  intros Hreg Hcons.
  destruct action as [group|location|location|group|m matched exactlyMatched|
                      source|pathname|from to];
    try (by apply (consistent_same_flags this)).
  intros m'. unfold exact_flag, matched_flag. simpl.
  destruct (decide (m = m')) as [<-|Hne].
  - rewrite lookup_insert_eq. simpl. destruct Hreg as [->|[-> ->]]; done.
  - rewrite lookup_insert_ne by done. apply Hcons.
Qed.

Lemma Regular_perform_all (actions : list Action) (k : Proc) :
  Forall regular actions -> Regular k -> Regular (perform_all actions k).
Proof.
  induction 1 as [|action actions Hreg _ IH]; intros Hk; simpl; [done|].
  constructor; [done | by apply IH].
Qed.

Lemma Regular_before_loop (config : Config) (nextLocation : Location)
    (hooks : list (HookKind * NodeId)) (k : Proc) :
  Regular k -> Regular (before_loop config nextLocation hooks k).
Proof.
  intros Hk. induction hooks as [|[hook m] hooks IH]; simpl; [done|].
  constructor. intros results. constructor. intros this.
  destruct (_isNextLocationOutDated this nextLocation); [constructor|].
  destruct (negb (before_result results)); [|done].
  constructor. intros this'. constructor; [done | constructor].
Qed.

Lemma Regular_update_loop (updates : list (NodeId * (bool * bool))) (k : Proc) :
  Forall (fun update => regular (UpdateMatch update.1 update.2.1 update.2.2)) updates ->
  Regular k -> Regular (update_loop updates k).
Proof.
  induction 1 as [|[m [matched exactlyMatched]] updates Hreg _ IH]; intros Hk;
    simpl; [done|].
  constructor; [done | by apply IH].
Qed.

Lemma Regular_after_loop (hooks : list (HookKind * NodeId)) (k : Proc) :
  Regular k -> Regular (after_loop hooks k).
Proof.
  intros Hk. induction hooks as [|[hook m] hooks IH]; simpl; [done|].
  by constructor.
Qed.

(** The updates of the flags made by [_update] are [_update(false, false)]
    for the routes left and [_update(true, exact)] for the routes of the
    new chain. *)
Lemma Regular__update (config : Config) (nextLocation : Location)
    (group : option string) (matchToMatchEntryMap : EntryMap) :
  Regular (_update config nextLocation group matchToMatchEntryMap).
Proof.
  unfold _update. constructor. intros this. apply Regular_perform_all.
  { unfold ensure_entry_map. destruct (mjoin _); by repeat constructor. }
  constructor. intros this'.
  apply Regular_before_loop, Regular_before_loop.
  constructor; [done|]. constructor; [done|].
  apply Regular_update_loop.
  { apply Forall_forall. intros update Hin.
    apply list_elem_of_In, in_map_iff in Hin as (m & <- & _). simpl. by right. }
  apply Regular_update_loop.
  { apply Forall_forall. intros update Hin.
    apply list_elem_of_In, in_map_iff in Hin as (m & <- & _). simpl. by left. }
  apply Regular_after_loop, Regular_after_loop. constructor.
Qed.

Lemma run_sync_regular (p : Proc) (this : State) :
  Regular p -> consistent this ->
  consistent (run_sync p this).1.1 /\ Regular (run_sync p this).2.
Proof.
  intros Hp. revert this.
  induction Hp as [|k _ IH|action k Hreg _ IH|hook m k Hk _]; intros this Hcons; simpl.
  - split; [done | constructor].
  - by apply IH.
  - specialize (IH (perform action this) (consistent_perform _ _ Hreg Hcons)).
    by destruct (run_sync k (perform action this)) as [[? ?] ?].
  - split; [done | by constructor].
Qed.

Lemma start_updates_regular (config : Config) (nextLocation : Location)
    (todo : list (option string * EntryMap)) (this : State) :
  consistent this ->
  consistent (start_updates config nextLocation todo this).1.1 /\
  Forall Regular (start_updates config nextLocation todo this).2.
Proof.
  unfold start_updates.
  assert (forall acc : State * list Occurrence * list Proc,
             consistent acc.1.1 -> Forall Regular acc.2 ->
             let result :=
               fold_left
                 (fun acc update =>
                    let '(this, trace, procs) := acc in
                    let '(this', trace', p) :=
                      run_sync (_update config nextLocation update.1 update.2) this in
                    (this', trace ++ trace', procs ++ [p]))
                 todo acc in
             consistent result.1.1 /\ Forall Regular result.2) as Hgen.
  { induction todo as [|update todo IH]; intros [[this0 trace] procs] Hcons Hprocs;
      simpl in *; [done|].
    pose proof (run_sync_regular _ this0
                  (Regular__update config nextLocation update.1 update.2) Hcons)
      as [Hcons' Hp].
    destruct (run_sync _ this0) as [[this' trace'] p]. simpl in *.
    apply IH; simpl; [done|]. apply Forall_app. split; [done|]. by constructor. }
  intros Hcons. by apply (Hgen (this, [], [])).
Qed.

Lemma begin_regular (config : Config)
    (URLSearchParams : string -> list (string * string))
    (nextLocation : Location) (this : State) :
  consistent this ->
  consistent (begin config URLSearchParams nextLocation this).1.1 /\
  Forall Regular (default [] (begin config URLSearchParams nextLocation this).2).
Proof.
  intros Hcons. unfold begin.
  destruct (_asyncOnLocationChange config URLSearchParams nextLocation this)
    as [| pathname | e | matchingSource todo]; simpl; try done.
  - destruct (has_onLeave config); simpl; [|done].
    split; [|done]. exact (consistent_perform (OnLeave pathname) this I Hcons).
  - pose proof (start_updates_regular config nextLocation todo
                  (perform (Publish matchingSource) this)
                  (consistent_perform (Publish matchingSource) this I Hcons)) as H.
    by destruct (start_updates _ _ _ _) as [[? ?] ?].
Qed.

Lemma step_regular (config : Config)
    (URLSearchParams : string -> list (string * string))
    (system system' : System) :
  step config URLSearchParams system system' ->
  consistent (state system) /\ Forall Regular (updates system) ->
  consistent (state system') /\ Forall Regular (updates system').
Proof.
  intros Hstep [Hcons Hprocs].
  destruct Hstep as [system location|system system' Hb|
                     system i results system' Ha|system system' Hf].
  - split; [|done]. by apply (consistent_same_flags (state system)).
  - unfold begin_next in Hb.
    destruct (in_flight system); [done|].
    destruct (queue system) as [|nextLocation rest]; [done|].
    pose proof (begin_regular config URLSearchParams nextLocation (state system) Hcons)
      as H.
    destruct (begin _ _ _ _) as [[this' trace] started].
    by injection Hb as <-.
  - unfold answer in Ha.
    destruct (updates system !! i) as [[| | |hook m k]|] eqn:Hi; try done.
    assert (Regular (Await hook m k)) as Hawait.
    { eapply Forall_lookup_1; eauto. }
    inversion Hawait as [| | |? ? ? Hk]; subst.
    pose proof (run_sync_regular _ (state system) (Hk results) Hcons) as H.
    destruct (run_sync _ _) as [[this' trace] p']. injection Ha as <-.
    destruct H as [H1 H2]. split; [done|]. by apply Forall_insert.
  - unfold finish in Hf.
    destruct (in_flight system) as [[from to]|]; [|done].
    destruct (forallb _ _); [|done]. injection Hf as <-.
    split; [|done]. simpl. destruct (has_onChange config); [|done].
    exact (consistent_perform (OnChange from to) (state system) I Hcons).
Qed.

(** C9.  Both flags of a route are [false] when it is made, and
    [RouteMatch._update] stores its two arguments in them.  In the router:
    the flags are [false] at the start; a call [_update(true, exact)] or
    [_update(false, false)] keeps "exact implies matched"; the calls made by
    the update of a group are of these two kinds; hence in every state the
    router reaches, whatever locations arrive and whatever the hooks answer, a
    route that is exactly matched is matched. *)
Theorem C9_exact_implies_matched (config : Config)
    (URLSearchParams : string -> list (string * string)) :
  (RouteMatch._matched RouteMatch.new = false /\
   RouteMatch._exactlyMatched RouteMatch.new = false) /\
  (forall this matched exactlyMatched,
      RouteMatch._matched (RouteMatch._update matched exactlyMatched this) = matched /\
      RouteMatch._exactlyMatched (RouteMatch._update matched exactlyMatched this)
        = exactlyMatched) /\
  (forall m, matched_flag initial m = false /\ exact_flag initial m = false) /\
  (forall this m matched exactlyMatched,
      consistent this ->
      matched = true \/ (matched = false /\ exactlyMatched = false) ->
      consistent (perform (UpdateMatch m matched exactlyMatched) this)) /\
  (forall nextLocation group matchToMatchEntryMap,
      Regular (_update config nextLocation group matchToMatchEntryMap)) /\
  (forall system,
      reachable config URLSearchParams system ->
      forall m, exact_flag (state system) m = true ->
                matched_flag (state system) m = true).
Proof.
  split; [done|]. split; [done|]. split; [|split; [|split]].
  - intros m. unfold matched_flag, exact_flag. simpl. by rewrite lookup_empty.
  - intros this m matched exactlyMatched Hcons Hreg. by apply consistent_perform.
  - apply Regular__update.
  - intros system Hreach.
    assert (consistent (state system) /\ Forall Regular (updates system)) as [H _];
      [|exact H].
    unfold reachable in Hreach. revert system Hreach.
    refine (rtc_ind_r
              (fun system => consistent (state system) /\ Forall Regular (updates system))
              _ _ _).
    + split; [apply consistent_initial | constructor].
    + intros system1 system2 _ Hstep IH. by eapply step_regular.
Qed.

End flags.

Section pipeline_claims_2.

Import Utils Router.

Lemma C9_exact_implies_matched_witness :
  exists system,
    Examples.account_committed = Some system /\
    exact_flag (state system) ["account"; "id"] = true /\
    matched_flag (state system) ["account"; "id"] = true.
Proof.
  destruct Examples.account_committed as [system|] eqn:E;
    [|by vm_compute in E].
  exists system. split; [done|].
  assert (reachable Examples.config_account Examples.no_query system) as Hreach.
  { unfold Examples.account_committed in E.
    destruct (begin_next Examples.config_account Examples.no_query
                (deliver Examples.location_account boot)) as [s2|] eqn:E2;
      [|done].
    simpl in E.
    destruct (answer 0 [ReturnsUndefined] s2) as [s3|] eqn:E3; [|done].
    simpl in E.
    eapply rtc_l; [apply step_location|].
    eapply rtc_l; [apply step_begin, E2|].
    eapply rtc_l; [eapply step_hook, E3|].
    eapply rtc_l; [eapply step_hook, E|].
    apply rtc_refl. }
  assert (exact_flag (state system) ["account"; "id"] = true) as Hexact.
  { vm_compute in E. injection E as <-. reflexivity. }
  split; [done|].
  exact (proj2 (proj2 (proj2 (proj2 (proj2
           (C9_exact_implies_matched Examples.config_account Examples.no_query)))))
           system Hreach _ Hexact).
Defined.

Lemma isLocationEqual_spec (left right : Location) :
  isLocationEqual left right = true <->
  pathname left = pathname right /\ search left = search right /\
  hash left = hash right.
Proof.
  unfold isLocationEqual. simpl. rewrite !andb_true_iff, !String.eqb_eq.
  intuition.
Qed.

(** C5.  When the location that comes in has the pathname, the search and
    the hash of the committed location, [_asyncOnLocationChange] returns
    before it reads the path: the state is left as it is, nothing is
    performed, no update is begun and so no hook is awaited.  This is the
    case when a location is submitted again after it has been committed:
    only the record of the last location changes. *)
Theorem C5_same_location_is_no_op (config : Config)
    (URLSearchParams : string -> list (string * string))
    (this : State) (location nextLocation : Location) :
  _location this = Some location ->
  pathname location = pathname nextLocation ->
  search location = search nextLocation ->
  hash location = hash nextLocation ->
  isLocationEqual location nextLocation = true /\
  _asyncOnLocationChange config URLSearchParams nextLocation this = Returns /\
  begin config URLSearchParams nextLocation this = (this, [], None) /\
  begin config URLSearchParams nextLocation (_onLocationChange nextLocation this)
    = (_onLocationChange nextLocation this, [], None) /\
  begin_next config URLSearchParams
    (deliver nextLocation
       {| state := this; updates := []; in_flight := None; queue := [] |})
    = Some {| state := _onLocationChange nextLocation this;
              updates := []; in_flight := None; queue := [] |}.
Proof.
  intros Hloc Hp Hs Hh.
  assert (isLocationEqual location nextLocation = true) as Heq
    by (by apply isLocationEqual_spec).
  assert (forall this', _location this' = Some location ->
            _asyncOnLocationChange config URLSearchParams nextLocation this' = Returns)
    as Hreturns.
  { intros this' Hloc'. unfold _asyncOnLocationChange.
    destruct (_isNextLocationOutDated this' nextLocation); [done|].
    by rewrite Hloc', Heq. }
  assert (forall this', _location this' = Some location ->
            begin config URLSearchParams nextLocation this' = (this', [], None))
    as Hbegin.
  { intros this' Hloc'. unfold begin. by rewrite Hreturns. }
  split; [done|]. split; [by apply Hreturns|]. split; [by apply Hbegin|].
  split; [by apply Hbegin|].
  unfold begin_next, deliver. simpl. by rewrite Hbegin.
Qed.

Lemma C5_same_location_is_no_op_witness :
  begin Examples.config_account Examples.no_query Examples.location_account_again
    (_onLocationChange Examples.location_account_again
       (perform (SetLocation Examples.location_account) initial))
  = (_onLocationChange Examples.location_account_again
       (perform (SetLocation Examples.location_account) initial), [], None).
Proof.
  apply (C5_same_location_is_no_op Examples.config_account Examples.no_query
           (perform (SetLocation Examples.location_account) initial)
           Examples.location_account Examples.location_account_again);
    reflexivity.
Defined.

End pipeline_claims_2.

(** * Further properties *)

(** ** The helpers of [@utils.ts] *)

Section utils_more.

Import Utils.

Lemma append_assoc (a b c : string) : (a +:+ b) +:+ c = a +:+ (b +:+ c).
Proof.
  induction a as [|x a IH]; [done|].
  rewrite !append_String. by rewrite IH.
Qed.

Lemma append_empty_r (a : string) : a +:+ "" = a.
Proof.
  induction a as [|x a IH]; [done|]. rewrite append_String. by rewrite IH.
Qed.

Lemma append_cancel_empty (a t : string) : a = a +:+ t -> t = "".
Proof.
  intros H. apply (f_equal String.length) in H. rewrite string_length_app in H.
  destruct t; [done | simpl in H; lia].
Qed.

(** X1.  [isPathPrefix] orders the paths: a path is a prefix of itself, a
    prefix of a prefix is a prefix, and two paths that are prefixes of each
    other are the same.  The empty prefix is a prefix of exactly the paths
    that are empty or start with a slash. *)
Theorem X1_isPathPrefix_order :
  (forall path, isPathPrefix path path = true) /\
  (forall a b c,
      isPathPrefix a b = true -> isPathPrefix b c = true ->
      isPathPrefix a c = true) /\
  (forall a b,
      isPathPrefix a b = true -> isPathPrefix b a = true -> a = b) /\
  (forall path, isPathPrefix path "" = true <-> Chains.well_formed path).
Proof.
  split; [|split; [|split]].
  - intros path. apply isPathPrefix_spec. exists "". split; [|by left].
    by rewrite append_empty_r.
  - intros a b c Hab Hbc.
    apply isPathPrefix_spec in Hab as (t1 & -> & H1).
    apply isPathPrefix_spec in Hbc as (t2 & -> & H2).
    apply isPathPrefix_spec. exists (t2 +:+ t1). split; [apply append_assoc|].
    destruct H2 as [->|[t ->]]; [done|]. right. exists (t +:+ t1).
    by rewrite append_String.
  - intros a b Hab Hba.
    apply isPathPrefix_spec in Hab as (t1 & -> & _).
    apply isPathPrefix_spec in Hba as (t2 & Hb & _).
    rewrite append_assoc in Hb. apply append_cancel_empty in Hb.
    destruct t1; [by rewrite append_empty_r|].
    destruct t2; discriminate.
  - intros path. rewrite isPathPrefix_spec. split.
    + intros (tail & -> & H). exact H.
    + intros H. by exists path.
Qed.

Lemma X1_isPathPrefix_order_witness : isPathPrefix "/a/b/c" "/a" = true.
Proof.
  apply (proj1 (proj2 X1_isPathPrefix_order) "/a/b/c" "/a/b" "/a"); reflexivity.
Defined.

Lemma forallb_elements_spec (P : string -> bool) (X : gset string) :
  forallb P (elements X) = true <-> forall key, key ∈ X -> P key = true.
Proof.
  rewrite forallb_forall. split.
  - intros H key Hin. apply H. by apply list_elem_of_In, elem_of_elements.
  - intros H key Hin. apply H. by apply elem_of_elements, list_elem_of_In.
Qed.

(** X2.  [isShallowlyEqual] holds exactly when reading any key gives the
    same on the two dictionaries, where reading a key gives the own
    property, or else the member of [Object.prototype] of that name, or else
    [undefined]; so it is reflexive, symmetric and transitive.  Only the
    own keys are compared by the code; a key that neither dictionary has
    reads the same on both. *)
Theorem X2_isShallowlyEqual_spec (left right : gmap string (option string)) :
  isShallowlyEqual left right = true <->
  forall key, dict_get left key = dict_get right key.
Proof.
  unfold isShallowlyEqual. rewrite forallb_elements_spec. split.
  - intros H key.
    destruct (decide (key ∈ dom left ∪ dom right)) as [Hin|Hout].
    + specialize (H key Hin). by apply bool_decide_eq_true in H.
    + apply not_elem_of_union in Hout as [Hl Hr].
      apply not_elem_of_dom in Hl, Hr. unfold dict_get. by rewrite Hl, Hr.
  - intros H key _. apply bool_decide_eq_true. apply H.
Qed.

(** [{id: undefined}] and [{}] are shallowly equal; [{constructor:
    undefined}] and [{}] are not, for [{}] inherits a [constructor]. *)
Lemma isShallowlyEqual_undefined :
  isShallowlyEqual {[ "id" := None ]} ∅ = true /\
  isShallowlyEqual ∅ {[ "constructor" := None ]} = false.
Proof. by vm_compute. Qed.

End utils_more.

(** ** More on matching *)

Section matching_more.

Import Utils RouteMatch Chains.

Lemma match_segment_found (this : RouteMatch.t) (path seg rst : string) :
  match_segment this path = Normal (Some seg, rst) ->
  path = "/" +:+ seg +:+ rst /\ well_formed rst.
Proof.
  intros H. pose proof (match_segment_rest _ _ _ H) as Hwf. split; [|exact Hwf].
  destruct path as [|c remainder]; [done|].
  destruct (decide (c = "/"%char)) as [->|Hc].
  - rewrite match_segment_slash in H.
    destruct (_matchPattern this) as [pattern|exec].
    + destruct (testPathPrefix remainder pattern) eqn:Hp; [|done].
      injection H as <- <-. destruct (isPathPrefix_rest _ _ Hp) as [Hrem _].
      rewrite append_String, append_empty. by rewrite <- Hrem.
    + destruct (exec remainder) as [m|]; [|done].
      destruct (testPathPrefix remainder m) eqn:Hp; [|done].
      injection H as <- <-. destruct (isPathPrefix_rest _ _ Hp) as [Hrem _].
      rewrite append_String, append_empty. by rewrite <- Hrem.
  - rewrite match_segment_throw in H; [done|].
    intros [?|[t [= ? ?]]]; congruence.
Qed.

(** A route that reports a match has consumed [/segment] of the path. *)
Lemma _match_matched (this : RouteMatch.t) (path : string) r :
  RouteMatch._match this path = Normal r ->
  matched r = true ->
  exists seg, segment r = Some seg /\ path = "/" +:+ seg +:+ rest r /\
              (exactlyMatched r = true -> rest r = "").
Proof.
  unfold RouteMatch._match.
  destruct (match_segment this path) as [[seg rst]|e] eqn:Hsr; simpl; [|done].
  destruct seg as [seg|]; simpl.
  - apply match_segment_found in Hsr as [Hpath _].
    destruct (bool_decide (rst = "")) eqn:Hrst; simpl;
      destruct (bool_decide (_children this <> None) && negb (_allowExact this));
      simpl; intros [= <-]; simpl; try done; intros _; exists seg;
      (split; [done|]); (split; [done|]); try done.
    intros _. by apply bool_decide_eq_true in Hrst.
  - intros [= <-]. done.
Qed.

Lemma Chain_spells children path indexes chain :
  Chain children path indexes chain -> path = path_of_chain chain.
Proof.
  induction 1 as [children path i routeMatch r _ Hr Hm He|
                  children path i routeMatch r indexes chain _ Hr Hm He _ IH].
  - destruct (_match_matched _ _ _ Hr Hm) as (seg & Hseg & Hpath & Hrest).
    simpl. rewrite Hseg. simpl. by rewrite Hpath, (Hrest He).
  - destruct (_match_matched _ _ _ Hr Hm) as (seg & Hseg & Hpath & _).
    simpl. rewrite Hseg. simpl. by rewrite <- IH.
Qed.

Lemma Chain_shape children path indexes chain :
  Chain children path indexes chain ->
  exists front final,
    chain = front ++ [final] /\ entry_exact final = true /\
    Forall (fun entry => entry_exact entry = false) front.
Proof.
  induction 1 as [children path i routeMatch r _ Hr Hm He|
                  children path i routeMatch r indexes chain _ Hr Hm He _ IH].
  - exists [], (entry_of routeMatch r true). by repeat split.
  - destruct IH as (front & final & -> & Hfinal & Hfront).
    exists (entry_of routeMatch r false :: front), final.
    split; [done|]. split; [done|]. by constructor.
Qed.

(** A chain is only returned for a path that is empty or starts with a
    slash, and it is then a complete chain. *)
Lemma _match_Some_Chain (children : list RouteMatch.t) (path : string) chain :
  TreeMatch._match children path = Normal (Some chain) ->
  exists indexes, Chain children path indexes chain.
Proof.
  intros H.
  assert (well_formed path) as Hwf.
  { destruct children as [|routeMatch siblings]; [done|].
    rewrite _match_cons, visit_eq in H.
    destruct (RouteMatch._match routeMatch path) as [r|e] eqn:Hr; [|done].
    destruct path as [|c t]; [by left|].
    destruct (decide (c = "/"%char)) as [->|Hc]; [right; by exists t|].
    unfold RouteMatch._match in Hr. rewrite match_segment_throw in Hr; [done|].
    intros [?|[t' [= ? ?]]]; congruence. }
  pose proof (_match_first_chain children path Hwf) as Hfirst.
  rewrite H in Hfirst. destruct Hfirst as (indexes & Hchain & _). by exists indexes.
Qed.

(** X3.  The segments of the chain the tree matcher returns spell the
    path: the path is [/segment] for every entry of the chain, in order,
    and nothing else. *)
Theorem X3_chain_spells_path (children : list RouteMatch.t) (path : string)
    (chain : list RouteMatchEntry) :
  TreeMatch._match children path = Normal (Some chain) ->
  path = path_of_chain chain.
Proof.
  intros H. destruct (_match_Some_Chain _ _ _ H) as [indexes Hchain].
  by eapply Chain_spells.
Qed.

Lemma X3_chain_spells_path_witness :
  "/account/42" =
  path_of_chain
    [ {| entry_match := ["account"]; entry_exact := false; entry_segment := "account" |};
      {| entry_match := ["account"; "id"]; entry_exact := true; entry_segment := "42" |} ].
Proof.
  apply (X3_chain_spells_path (Examples.build Examples.schema_account)).
  reflexivity.
Defined.

(** X4.  A chain returned by the tree matcher is never empty; its last
    entry is exact and no entry before it is. *)
Theorem X4_chain_ends_exact (children : list RouteMatch.t) (path : string)
    (chain : list RouteMatchEntry) :
  TreeMatch._match children path = Normal (Some chain) ->
  exists front final,
    chain = front ++ [final] /\ entry_exact final = true /\
    Forall (fun entry => entry_exact entry = false) front.
Proof.
  intros H. destruct (_match_Some_Chain _ _ _ H) as [indexes Hchain].
  by eapply Chain_shape.
Qed.

Lemma X4_chain_ends_exact_witness :
  exists front final,
    [ {| entry_match := ["account"]; entry_exact := false; entry_segment := "account" |};
      {| entry_match := ["account"; "id"]; entry_exact := true; entry_segment := "42" |} ]
    = front ++ [final] /\ entry_exact final = true /\
    Forall (fun entry => entry_exact entry = false) front.
Proof.
  apply (X4_chain_ends_exact (Examples.build Examples.schema_account) "/account/42").
  reflexivity.
Defined.

(** X5.  The empty path matches no route, whatever the tree: the
    single-node matcher reports no match without looking at the pattern, and
    the tree matcher returns [undefined]. *)
Theorem X5_empty_path_matches_nothing :
  (forall this,
      RouteMatch._match this "" =
        Normal {| matched := false; exactlyMatched := false;
                  segment := None; rest := "" |}) /\
  (forall children, TreeMatch._match children "" = Normal None).
Proof.
  assert (forall this,
             RouteMatch._match this "" =
               Normal {| matched := false; exactlyMatched := false;
                         segment := None; rest := "" |}) as Hone by done.
  split; [exact Hone|].
  intros children. induction children as [|routeMatch siblings IH]; [done|].
  rewrite _match_cons, visit_eq, Hone. simpl. exact IH.
Qed.

End matching_more.

(** ** Patterns that are regular expressions *)

Section regexp.

Import Utils RouteMatch Chains.

(** The segment of a route with a regular expression. *)
Lemma _match_regexp (this : RouteMatch.t)
    (exec : string -> option string) (remainder : string) :
  _matchPattern this = PRegExp exec ->
  exists r,
    RouteMatch._match this (String "/" remainder) = Normal r /\
    (forall s,
        segment r = Some s <->
        exec remainder = Some s /\
        exists tail, remainder = s +:+ tail /\
                     (tail = "" \/ exists t, tail = String "/" t)) /\
    (forall s, segment r = Some s -> remainder = s +:+ rest r).
Proof.
  intros Hpattern.
  assert (exists sr,
             match_segment this (String "/" remainder) = Normal sr /\
             (forall s,
                 sr.1 = Some s <->
                 exec remainder = Some s /\
                 exists tail, remainder = s +:+ tail /\
                              (tail = "" \/ exists t, tail = String "/" t)) /\
             (forall s, sr.1 = Some s -> remainder = s +:+ sr.2))
    as (sr & Hsr & Hiff & Hrest).
  { rewrite match_segment_slash, Hpattern.
    destruct (exec remainder) as [m|] eqn:Hexec.
    - destruct (testPathPrefix remainder m) eqn:Hp.
      + eexists. split; [reflexivity|]. simpl.
        pose proof (proj1 (isPathPrefix_spec _ _) Hp) as Hspec.
        destruct (isPathPrefix_rest _ _ Hp) as [Hrem _]. split.
        * intros s. split; [by intros [= <-] | by intros [[= <-] _]].
        * by intros s [= <-].
      + eexists. split; [reflexivity|]. simpl. split; [|done].
        intros s. split; [done|]. intros [[= <-] Hspec].
        apply isPathPrefix_spec in Hspec. unfold testPathPrefix in Hp. congruence.
    - eexists. split; [reflexivity|]. simpl. split; [|done].
      intros s. split; [done | by intros [? _]]. }
  unfold RouteMatch._match. rewrite Hsr. simpl.
  match goal with |- context [if ?b then _ else _] => destruct b end;
    eexists; (split; [reflexivity|]); simpl; by split.
Qed.



Lemma free_of_String (c d : ascii) (s : string) :
  free_of c (String d s) <-> d <> c /\ free_of c s.
Proof.
  unfold free_of. split.
  - intros H. split.
    + intros ->. by apply (H "" s).
    + intros a b ->. by apply (H (String d a) b).
  - intros [Hd Hs] a b Heq. destruct a as [|x a].
    + rewrite append_empty in Heq. by injection Heq as ->.
    + rewrite append_String in Heq. injection Heq as -> Heq. by apply (Hs a b).
Qed.

Lemma free_of_empty (c : ascii) : free_of c "".
Proof. intros a b H. destruct a; discriminate. Qed.

Lemma segment_run_String (c : ascii) (s : string) :
  segment_run (String c s) =
  if Ascii.eqb c "/" then "" else String c (segment_run s).
Proof. reflexivity. Qed.

Lemma segment_exec_String (c : ascii) (s : string) :
  segment_exec (String c s) =
  if Ascii.eqb c "/" then segment_exec s else Some (segment_run (String c s)).
Proof. reflexivity. Qed.

(** [segment_run] cuts a string at its first slash. *)
Lemma segment_run_split (s : string) :
  free_of "/" (segment_run s) /\
  exists tail, s = segment_run s +:+ tail /\ (tail = "" \/ exists t, tail = String "/" t).
Proof.
  induction s as [|c s [IHfree (tail & IHs & IHtail)]].
  - split; [apply free_of_empty|]. exists "". by split; [|left].
  - rewrite segment_run_String. destruct (Ascii.eqb c "/") eqn:Hc.
    + apply Ascii.eqb_eq in Hc as ->. split; [apply free_of_empty|].
      exists (String "/" s). split; [done|]. right. by exists s.
    + apply Ascii.eqb_neq in Hc. split; [by apply free_of_String|].
      exists tail. split; [|done]. rewrite append_String. by rewrite <- IHs.
Qed.

Lemma segment_run_unique (s tail : string) :
  free_of "/" s -> (tail = "" \/ exists t, tail = String "/" t) ->
  segment_run (s +:+ tail) = s.
Proof.
  intros Hfree Htail. induction s as [|c s IH].
  - rewrite append_empty. by destruct Htail as [->|[t ->]].
  - apply free_of_String in Hfree as [Hc Hfree].
    rewrite append_String, segment_run_String.
    apply Ascii.eqb_neq in Hc. rewrite Hc. by rewrite IH.
Qed.

Lemma segment_exec_head (s m : string) :
  segment_exec s = Some m -> exists c m', m = String c m' /\ c <> "/"%char.
Proof.
  revert m. induction s as [|c s IH]; intros m; [done|].
  rewrite segment_exec_String.
  destruct (Ascii.eqb c "/") eqn:Hc; [apply IH|].
  rewrite segment_run_String, Hc. intros [= <-].
  apply Ascii.eqb_neq in Hc. by exists c, (segment_run s).
Qed.

(** X7.  A route with the pattern [RouteMatch.segment] takes the first
    segment of the path and nothing else: on [/remainder] its segment is [s]
    exactly when [s] is not empty, holds no slash, and [remainder] is [s]
    followed by nothing or by a slash.  So [/] and [//x] give no segment. *)
Theorem X7_segment_pattern (this : RouteMatch.t) (remainder : string) :
  _matchPattern this = segment_pattern ->
  exists r,
    RouteMatch._match this (String "/" remainder) = Normal r /\
    (forall s,
        segment r = Some s <->
        s <> "" /\ free_of "/" s /\
        exists tail, remainder = s +:+ tail /\
                     (tail = "" \/ exists t, tail = String "/" t)) /\
    (forall s, segment r = Some s -> remainder = s +:+ rest r).
Proof.
  intros Hpattern.
  destruct (_match_regexp this segment_exec remainder Hpattern)
    as (r & Hr & Hiff & Hrest).
  exists r. split; [exact Hr|]. split; [|exact Hrest].
  intros s. rewrite Hiff. split.
  - intros [Hexec Hsplit]. split; [|split; [|exact Hsplit]].
    + destruct (segment_exec_head _ _ Hexec) as (c & m' & -> & _). done.
    + destruct (segment_exec_head _ _ Hexec) as (c & m' & -> & Hc).
      destruct Hsplit as (tail & -> & _). rewrite append_String in Hexec.
      rewrite segment_exec_String in Hexec.
      apply Ascii.eqb_neq in Hc. rewrite Hc in Hexec.
      injection Hexec as <-.
      apply (segment_run_split (String c (m' +:+ tail))).
  - intros (Hne & Hfree & tail & -> & Htail). split; [|by exists tail].
    destruct s as [|c s]; [done|].
    pose proof (segment_run_unique (String c s) tail Hfree Htail) as Hrun.
    apply free_of_String in Hfree as [Hc _]. rewrite append_String in Hrun |- *.
    rewrite segment_exec_String. apply Ascii.eqb_neq in Hc. by rewrite Hc, Hrun.
Qed.

Lemma X7_segment_pattern_witness :
  exists r,
    RouteMatch._match
      (RouteMatch.Build "id" None ["id"] segment_pattern false None [])
      "//x" = Normal r /\
    segment r = None.
Proof.
  destruct (X7_segment_pattern
              (RouteMatch.Build "id" None ["id"] segment_pattern false None [])
              "/x" eq_refl) as (r & Hr & Hiff & _).
  exists r. split; [exact Hr|].
  destruct (segment r) as [s|] eqn:Hs; [|done].
  destruct (proj1 (Hiff s) eq_refl) as (Hne & Hfree & tail & Hrem & _).
  destruct s as [|c s]; [done|]. rewrite append_String in Hrem.
  injection Hrem as <- _. exfalso. by apply (Hfree "" s).
Defined.

End regexp.

Section rest_pattern.

Import Utils RouteMatch Chains.

Lemma append_cancel_l (s a b : string) : s +:+ a = s +:+ b -> a = b.
Proof.
  induction s as [|c s IH]; [done|]. rewrite !append_String. intros [= H]. by apply IH.
Qed.

Lemma is_line_terminator_false (c : ascii) :
  is_line_terminator c = false <-> c <> "010"%char /\ c <> "013"%char.
Proof.
  unfold is_line_terminator. rewrite orb_false_iff, !Ascii.eqb_neq. done.
Qed.

Lemma dot_run_String (c : ascii) (s : string) :
  dot_run (String c s) =
  if is_line_terminator c then "" else String c (dot_run s).
Proof. reflexivity. Qed.

Lemma rest_exec_String (c : ascii) (s : string) :
  rest_exec (String c s) =
  if is_line_terminator c then rest_exec s else Some (dot_run (String c s)).
Proof. reflexivity. Qed.

(** [dot_run] cuts a string at its first line terminator. *)
Lemma dot_run_split (s : string) :
  free_of "010" (dot_run s) /\ free_of "013" (dot_run s) /\
  exists tail,
    s = dot_run s +:+ tail /\
    (tail = "" \/ exists c t, tail = String c t /\ is_line_terminator c = true).
Proof.
  induction s as [|c s (IH1 & IH2 & tail & IHs & IHtail)].
  - split; [apply free_of_empty|]. split; [apply free_of_empty|].
    exists "". by split; [|left].
  - rewrite dot_run_String. destruct (is_line_terminator c) eqn:Hc.
    + split; [apply free_of_empty|]. split; [apply free_of_empty|].
      exists (String c s). split; [done|]. right. by exists c, s.
    + apply is_line_terminator_false in Hc as [Hn Hr].
      split; [by apply free_of_String|]. split; [by apply free_of_String|].
      exists tail. split; [|done]. rewrite append_String. by rewrite <- IHs.
Qed.

Lemma dot_run_all (s : string) :
  free_of "010" s -> free_of "013" s -> dot_run s = s.
Proof.
  induction s as [|c s IH]; [done|]. intros Hn Hr.
  apply free_of_String in Hn as [Hn Hn'], Hr as [Hr Hr'].
  rewrite dot_run_String.
  assert (is_line_terminator c = false) as -> by (by apply is_line_terminator_false).
  by rewrite IH.
Qed.

Lemma rest_exec_head (s m : string) :
  rest_exec s = Some m ->
  exists c m', m = String c m' /\ is_line_terminator c = false.
Proof.
  revert m. induction s as [|c s IH]; intros m; [done|].
  rewrite rest_exec_String.
  destruct (is_line_terminator c) eqn:Hc; [apply IH|].
  rewrite dot_run_String, Hc. intros [= <-]. by exists c, (dot_run s).
Qed.

(** X8.  A route with the pattern [RouteMatch.rest] takes all that
    follows the slash or nothing: on [/remainder] its segment is
    [remainder] itself, with an empty rest, exactly when [remainder] is not
    empty and holds no line feed and no carriage return; otherwise there is
    no segment.  So [/] is not matched by it.  (The characters are the
    8-bit ones: U+2028 and U+2029, which the dot does not take either, are
    not among them.) *)
Theorem X8_rest_pattern (this : RouteMatch.t) (remainder : string) :
  _matchPattern this = rest_pattern ->
  exists r,
    RouteMatch._match this (String "/" remainder) = Normal r /\
    (forall s,
        segment r = Some s <->
        s = remainder /\ remainder <> "" /\
        free_of "010" remainder /\ free_of "013" remainder) /\
    (forall s, segment r = Some s -> rest r = "").
Proof.
  intros Hpattern.
  destruct (_match_regexp this rest_exec remainder Hpattern)
    as (r & Hr & Hiff & Hrest).
  assert (forall s,
             rest_exec remainder = Some s /\
             (exists tail, remainder = s +:+ tail /\
                           (tail = "" \/ exists t, tail = String "/" t)) <->
             s = remainder /\ remainder <> "" /\
             free_of "010" remainder /\ free_of "013" remainder) as Hchar.
  { intros s. split.
    - intros (Hexec & tail & Hrem & Htail).
      destruct (rest_exec_head _ _ Hexec) as (c & m' & -> & Hc).
      assert (String c m' = dot_run remainder) as Hrun.
      { rewrite Hrem, append_String, rest_exec_String, Hc in Hexec.
        rewrite Hrem, append_String. by injection Hexec as <-. }
      destruct (dot_run_split remainder) as (Hn & Hr' & tail' & Hsplit & Htail').
      rewrite <- Hrun in Hn, Hr', Hsplit.
      assert (tail = tail') as <-.
      { apply (append_cancel_l (String c m')). by rewrite <- Hrem, <- Hsplit. }
      assert (tail = "") as ->.
      { destruct Htail as [->|[t ->]]; [done|].
        destruct Htail' as [?|(c' & t' & [= <- <-] & Hterm)]; [done|].
        by vm_compute in Hterm. }
      rewrite append_empty_r in Hrem. subst remainder. done.
    - intros (-> & Hne & Hn & Hr'). split.
      + destruct remainder as [|c t]; [done|].
        pose proof (dot_run_all _ Hn Hr') as Hall.
        apply free_of_String in Hn as [Hn _], Hr' as [Hr' _].
        rewrite rest_exec_String.
        assert (is_line_terminator c = false) as ->
          by (by apply is_line_terminator_false).
        by rewrite Hall.
      + exists "". split; [by rewrite append_empty_r | by left]. }
  exists r. split; [exact Hr|]. split.
  - intros s. rewrite Hiff. apply Hchar.
  - intros s Hs. pose proof (Hrest s Hs) as Hrem.
    apply Hiff, Hchar in Hs as [-> _].
    apply (append_cancel_empty remainder). exact Hrem.
Qed.

Lemma X8_rest_pattern_witness :
  exists r,
    RouteMatch._match
      (RouteMatch.Build "notFound" None ["notFound"] rest_pattern false None [])
      "/no/such/page" = Normal r /\
    segment r = Some "no/such/page".
Proof.
  destruct (X8_rest_pattern
              (RouteMatch.Build "notFound" None ["notFound"] rest_pattern false None [])
              "no/such/page" eq_refl) as (r & Hr & Hiff & _).
  exists r. split; [exact Hr|]. apply Hiff.
  split; [done|]. split; [done|].
  split; intros a b H; vm_compute in Hr; injection Hr as <-;
    repeat (destruct a as [|? a]; [discriminate|]; injection H as _ H);
    destruct a; discriminate.
Defined.

End rest_pattern.

(** ** The commit of an update *)

Section commit.

Import Utils Router.

Variable config : Config.
Variable nextLocation : Location.

Lemma update_loop_perform_all (updates : list (NodeId * (bool * bool))) (k : Proc) :
  update_loop updates k =
  perform_all (map (fun update => UpdateMatch update.1 update.2.1 update.2.2) updates) k.
Proof.
  induction updates as [|[m [matched exactlyMatched]] updates IH]; simpl; [done|].
  by rewrite IH.
Qed.

Lemma run_before_loops_all (leaving entering : list (HookKind * NodeId))
    (k : Proc) (pre : list Resumption) (this before : State)
    (post : list Resumption) :
  approved nextLocation this pre = Some before ->
  length pre = length (leaving ++ entering) ->
  run (before_loop config nextLocation leaving
         (before_loop config nextLocation entering k)) this (pre ++ post) =
  let '(this', trace, status) := run k before post in
  (this', awaited (leaving ++ entering) ++ trace, status).
Proof.
  intros Hpre Hlen. rewrite length_app in Hlen.
  rewrite <- (take_drop (length leaving) pre) in Hpre |- * at 1.
  rewrite approved_app in Hpre.
  destruct (approved nextLocation this (take (length leaving) pre))
    as [middle|] eqn:Hfirst; [|done]. simpl in Hpre.
  rewrite <- app_assoc.
  rewrite (run_before_loop_all config nextLocation leaving _ _ this middle _ Hfirst)
    by (rewrite length_take; lia).
  rewrite (run_before_loop_all config nextLocation entering k _ middle before post Hpre)
    by (rewrite length_drop; lia).
  destruct (run k before post) as [[this' trace] status].
  unfold awaited. by rewrite map_app, app_assoc.
Qed.

Lemma run_after_loop_all (hooks : list (HookKind * NodeId)) (k : Proc)
    (post : list Resumption) (this : State) (rest : list Resumption) :
  length post = length hooks ->
  run (after_loop hooks k) this (post ++ rest) =
  let '(this', trace, status) :=
    run k (fold_left (fun this r => meanwhile r this) post this) rest in
  (this', awaited hooks ++ trace, status).
Proof.
  revert post this. induction hooks as [|[hook m] hooks IH]; intros post this Hlen.
  - destruct post; [|done]. simpl. by destruct (run k this rest) as [[? ?] ?].
  - destruct post as [|r post]; [done|]. simpl app. simpl after_loop.
    rewrite run_Await, IH by (simpl in Hlen; lia). simpl.
    by destruct (run k _ rest) as [[? ?] ?].
Qed.

Lemma run_after_loops_nil (leaving entering : list (HookKind * NodeId))
    (this : State) :
  exists status,
    run (after_loop leaving (after_loop entering Done)) this [] = (this, [], status).
Proof.
  destruct leaving as [|[hook m] leaving]; simpl.
  - destruct entering as [|[hook m] entering]; simpl; by eexists.
  - by eexists.
Qed.

(** An update whose [before] hooks are all approved, up to its [after]
    hooks. *)
Lemma run__update_approved (group : option string)
    (matchToMatchEntryMap : EntryMap) (this before : State)
    (pre post : list Resumption) :
  let this0 := prepared this group in
  length pre = length (before_hooks config this0 group matchToMatchEntryMap) ->
  approved nextLocation this0 pre = Some before ->
  run (_update config nextLocation group matchToMatchEntryMap) this (pre ++ post) =
  let actions :=
    commit_actions nextLocation group
      (reversedLeavingMatches this0 group matchToMatchEntryMap) matchToMatchEntryMap in
  let '(this', trace, status) :=
    run (after_loop
           (map (fun m => (AfterLeave, m))
              (reversedLeavingMatches this0 group matchToMatchEntryMap))
        (after_loop
           (map (after_hook (previousMatchSet this0 group))
              (enteringAndUpdatingMatchSet config this0 group matchToMatchEntryMap))
           Done))
      (fold_left (fun this action => perform action this) actions before) post in
  (this',
   map Did (ensure_entry_map this group)
     ++ awaited (before_hooks config this0 group matchToMatchEntryMap)
     ++ map Did actions ++ trace,
   status).
Proof.
  intros this0 Hlen Hpre. rewrite run__update. cbv zeta. subst this0.
  unfold before_hooks in Hlen |- *.
  rewrite (run_before_loops_all _ _ _ pre _ before post Hpre Hlen).
  rewrite !run_Perform, !update_loop_perform_all, !run_perform_all.
  unfold commit_actions. rewrite !map_map. simpl.
  rewrite fold_left_app.
  destruct (run _ _ post) as [[this' trace] status].
  by rewrite map_app, !map_map, <- app_assoc.
Qed.

Lemma flags_fold_UpdateMatch (f : NodeId -> bool * bool) (ms : list NodeId)
    (this : State) (m : NodeId) :
  flags (fold_left (fun this action => perform action this)
           (map (fun m => UpdateMatch m (f m).1 (f m).2) ms) this) !! m =
  if bool_decide (m ∈ ms) then Some (f m) else flags this !! m.
Proof.
  revert this. induction ms as [|a ms IH]; intros this.
  - done.
  - change (fold_left _ (map _ (a :: ms)) this)
      with (fold_left (fun this action => perform action this)
              (map (fun m => UpdateMatch m (f m).1 (f m).2) ms)
              (perform (UpdateMatch a (f a).1 (f a).2) this)).
    rewrite IH. destruct (decide (m ∈ ms)) as [Hin|Hout].
    + rewrite !bool_decide_eq_true_2; [done | by right | done].
    + rewrite (bool_decide_eq_false_2 (m ∈ ms)) by done.
      destruct (decide (a = m)) as [->|Hne].
      * rewrite bool_decide_eq_true_2 by (by left). simpl.
        rewrite lookup_insert_eq. by destruct (f m).
      * rewrite bool_decide_eq_false_2
          by (intros [?|?]%elem_of_cons; congruence). simpl.
        by rewrite lookup_insert_ne.
Qed.

Lemma fold_UpdateMatch_other (f : NodeId -> bool * bool) (ms : list NodeId)
    (this : State) :
  let after :=
    fold_left (fun this action => perform action this)
      (map (fun m => UpdateMatch m (f m).1 (f m).2) ms) this in
  _location after = _location this /\ _nextLocation after = _nextLocation this /\
  _source after = _source this /\ _matchingSource after = _matchingSource this /\
  replace_calls after = replace_calls this /\
  onLeave_calls after = onLeave_calls this /\
  onChange_calls after = onChange_calls this.
Proof.
  revert this. induction ms as [|a ms IH]; intros this; simpl; [done|].
  specialize (IH (perform (UpdateMatch a (f a).1 (f a).2) this)). simpl in IH.
  exact IH.
Qed.

Lemma commit_actions_effect (group : option string) (leaving : list NodeId)
    (matchToMatchEntryMap : EntryMap) (before : State) :
  leaving ## nextMatchSet matchToMatchEntryMap ->
  let after :=
    fold_left (fun this action => perform action this)
      (commit_actions nextLocation group leaving matchToMatchEntryMap) before in
  _location after = Some nextLocation /\
  _source after = commit_source group (_source before) (_matchingSource before) /\
  (forall m, m ∈ nextMatchSet matchToMatchEntryMap ->
             flags after !! m = Some (true, exact_in matchToMatchEntryMap m)) /\
  (forall m, m ∈ leaving -> flags after !! m = Some (false, false)) /\
  (forall m, m ∉ nextMatchSet matchToMatchEntryMap -> m ∉ leaving ->
             flags after !! m = flags before !! m) /\
  replace_calls after = replace_calls before.
Proof.
  intros Hdisjoint after. subst after. unfold commit_actions.
  rewrite !fold_left_app.
  change (fold_left _ [SetLocation nextLocation; Commit group] before)
    with (perform (Commit group) (perform (SetLocation nextLocation) before)).
  set (committed := perform (Commit group) (perform (SetLocation nextLocation) before)).
  set (left := fold_left (fun this action => perform action this)
                 (map (fun m => UpdateMatch m false false) leaving) committed).
  pose proof (fold_UpdateMatch_other (fun _ => (false, false)) leaving committed)
    as (L1 & _ & L3 & _ & L5 & _).
  pose proof (fold_UpdateMatch_other
                (fun m => (true, exact_in matchToMatchEntryMap m))
                (nextMatchSet matchToMatchEntryMap) left)
    as (N1 & _ & N3 & _ & N5 & _).
  pose proof (flags_fold_UpdateMatch (fun m => (true, exact_in matchToMatchEntryMap m))
                (nextMatchSet matchToMatchEntryMap) left) as Fnext.
  pose proof (flags_fold_UpdateMatch (fun _ => (false, false)) leaving committed)
    as Fleave.
  cbn [fst snd] in L1, L3, L5, N1, N3, N5, Fnext, Fleave. fold left in L1, L3, L5, Fleave.
  split; [|split; [|split; [|split; [|split]]]].
  - by rewrite N1, L1.
  - by rewrite N3, L3.
  - intros m Hin. by rewrite Fnext, bool_decide_eq_true_2.
  - intros m Hin.
    rewrite Fnext, bool_decide_eq_false_2 by (intros ?; by eapply Hdisjoint).
    by rewrite Fleave, bool_decide_eq_true_2.
  - intros m Hn Hl.
    by rewrite Fnext, bool_decide_eq_false_2, Fleave, bool_decide_eq_false_2.
  - by rewrite N5, L5.
Qed.

Lemma leaving_disjoint (this : State) (group : option string)
    (matchToMatchEntryMap : EntryMap) :
  reversedLeavingMatches this group matchToMatchEntryMap
    ## nextMatchSet matchToMatchEntryMap.
Proof.
  intros m Hl Hn. unfold reversedLeavingMatches in Hl.
  apply elem_of_reverse, list_elem_of_filter in Hl as [Hnot _]. done.
Qed.

(** X9.  An update whose [before] hooks have all been approved commits
    before it awaits anything else: the committed location is the new one,
    the committed source has the path, the entries and the query of the
    candidate source for the group, every route of the new chain is flagged
    matched with the exactness of its entry, every route left is flagged
    neither matched nor exact, the flags of the other routes are kept, and
    no [replace] call is made. *)
Theorem X9_approved_update_commits (group : option string)
    (matchToMatchEntryMap : EntryMap) (this before : State)
    (pre : list Resumption) :
  let this0 := prepared this group in
  let leaving := reversedLeavingMatches this0 group matchToMatchEntryMap in
  length pre = length (before_hooks config this0 group matchToMatchEntryMap) ->
  approved nextLocation this0 pre = Some before ->
  let result := run (_update config nextLocation group matchToMatchEntryMap) this pre in
  let after := result.1.1 in
  own_actions result.1.2 =
    ensure_entry_map this group
      ++ commit_actions nextLocation group leaving matchToMatchEntryMap /\
  _location after = Some nextLocation /\
  _source after = commit_source group (_source before) (_matchingSource before) /\
  (forall m, m ∈ nextMatchSet matchToMatchEntryMap ->
             flags after !! m = Some (true, exact_in matchToMatchEntryMap m)) /\
  (forall m, m ∈ leaving -> flags after !! m = Some (false, false)) /\
  (forall m, m ∉ nextMatchSet matchToMatchEntryMap -> m ∉ leaving ->
             flags after !! m = flags before !! m) /\
  replace_calls after = replace_calls before.
Proof.
  intros this0 leaving Hlen Hpre result after. subst result after.
  rewrite <- (app_nil_r pre).
  rewrite (run__update_approved group matchToMatchEntryMap this before pre [] Hlen Hpre).
  cbv zeta. fold this0. fold leaving.
  destruct (run_after_loops_nil
              (map (fun m => (AfterLeave, m)) leaving)
              (map (after_hook (previousMatchSet this0 group))
                 (enteringAndUpdatingMatchSet config this0 group matchToMatchEntryMap))
              (fold_left (fun this action => perform action this)
                 (commit_actions nextLocation group leaving matchToMatchEntryMap) before))
    as [status ->].
  cbn [fst snd].
  split.
  { rewrite !own_actions_app, own_actions_Did, own_actions_awaited, own_actions_Did.
    by rewrite app_nil_r. }
  apply commit_actions_effect, leaving_disjoint.
Qed.

End commit.

Lemma X9_approved_update_commits_witness :
  let result :=
    Router.run (Router._update Examples.config_account Examples.location_account None
           Examples.entries_account)
      Examples.account_requested
      [Examples.quietly [Router.ReturnsUndefined];
       Examples.quietly [Router.ReturnsTrue]] in
  Router._location result.1.1 = Some Examples.location_account /\
  Router.flags result.1.1 !! ["account"; "id"] = Some (true, true).
Proof.
  pose proof (X9_approved_update_commits Examples.config_account
                Examples.location_account None Examples.entries_account
                Examples.account_requested
                (Router.prepared Examples.account_requested None)
                [Examples.quietly [Router.ReturnsUndefined];
       Examples.quietly [Router.ReturnsTrue]])
    as H.
  cbv zeta in H.
  specialize (H ltac:(vm_compute; reflexivity) ltac:(vm_compute; reflexivity)).
  destruct H as (_ & H2 & _ & H4 & _).
  split; [exact H2|]. apply (H4 ["account"; "id"]).
  apply list_elem_of_In. vm_compute. right. left. reflexivity.
Defined.


Section after_hooks.

Import Utils Router.

Lemma run_after_loops_all (leaving entering : list (HookKind * NodeId))
    (post : list Resumption) (this : State) :
  length post = length (leaving ++ entering) ->
  run (after_loop leaving (after_loop entering Done)) this post =
  (fold_left (fun this r => meanwhile r this) post this,
   awaited (leaving ++ entering), Finished).
Proof.
  intros Hlen. rewrite length_app in Hlen.
  rewrite <- (take_drop (length leaving) post) at 1.
  rewrite run_after_loop_all by (rewrite length_take; lia).
  rewrite <- (app_nil_r (drop (length leaving) post)) at 1.
  rewrite run_after_loop_all by (rewrite length_drop; lia).
  rewrite run_Done.
  rewrite <- fold_left_app, take_drop.
  unfold awaited. by rewrite map_app, app_nil_r.
Qed.

(** X10.  Once an update has committed, the results of its [after] hooks
    change nothing: whatever they are, and whether or not another location
    has been recorded meanwhile, the update awaits every [after] hook, first
    of the routes left, then of the routes entered or updated, performs
    nothing more and ends; its state at the end is the committed state as
    other code has changed it meanwhile. *)
Theorem X10_after_hooks_never_undo (config : Config) (nextLocation : Location)
    (group : option string) (matchToMatchEntryMap : EntryMap)
    (this before : State) (pre post : list Resumption) :
  let this0 := prepared this group in
  let actions :=
    commit_actions nextLocation group
      (reversedLeavingMatches this0 group matchToMatchEntryMap) matchToMatchEntryMap in
  length pre = length (before_hooks config this0 group matchToMatchEntryMap) ->
  approved nextLocation this0 pre = Some before ->
  length post = length (after_hooks config this0 group matchToMatchEntryMap) ->
  run (_update config nextLocation group matchToMatchEntryMap) this (pre ++ post) =
  (fold_left (fun this r => meanwhile r this) post
     (fold_left (fun this action => perform action this) actions before),
   map Did (ensure_entry_map this group)
     ++ awaited (before_hooks config this0 group matchToMatchEntryMap)
     ++ map Did actions
     ++ awaited (after_hooks config this0 group matchToMatchEntryMap),
   Finished).
Proof.
  intros this0 actions Hlen Hpre Hpost.
  rewrite (run__update_approved config nextLocation group matchToMatchEntryMap
             this before pre post Hlen Hpre).
  cbv zeta. unfold after_hooks in Hpost. fold this0 in Hpost |- *.
  by rewrite (run_after_loops_all _ _ post _ Hpost).
Qed.

Lemma X10_after_hooks_never_undo_witness :
  (run (_update Examples.config_account Examples.location_account None
          Examples.entries_account)
     Examples.account_requested
     ([Examples.quietly [ReturnsUndefined]; Examples.quietly [ReturnsTrue]]
        ++ [Examples.arriving Examples.location_home [ReturnsFalse];
            Examples.quietly [ReturnsFalse]])).2 = Finished.
Proof.
  rewrite (X10_after_hooks_never_undo Examples.config_account
             Examples.location_account None Examples.entries_account
             Examples.account_requested
             (prepared Examples.account_requested None)
             [Examples.quietly [ReturnsUndefined]; Examples.quietly [ReturnsTrue]]
             [Examples.arriving Examples.location_home [ReturnsFalse];
              Examples.quietly [ReturnsFalse]]);
    [reflexivity | by vm_compute | by vm_compute | by vm_compute].
Defined.

End after_hooks.

(** ** What the pipeline publishes *)

Section publishing.

Import Utils Router.

Lemma map_get_map_set_eq {K V} `{EqDecision K} (m : list (K * V)) (k : K) (v : V) :
  map_get (map_set m k v) k = Some v.
Proof.
  unfold map_get. induction m as [|[k' v'] m IH]; simpl.
  - by rewrite bool_decide_eq_true_2.
  - destruct (decide (k' = k)) as [->|Hne].
    + rewrite bool_decide_eq_true_2 by done. simpl. by rewrite bool_decide_eq_true_2.
    + rewrite bool_decide_eq_false_2 by done. simpl.
      by rewrite bool_decide_eq_false_2.
Qed.

Lemma map_get_map_set_ne {K V} `{EqDecision K} (m : list (K * V)) (k k' : K) (v : V) :
  k <> k' -> map_get (map_set m k v) k' = map_get m k'.
Proof.
  intros Hne. unfold map_get. induction m as [|[k0 v0] m IH]; simpl.
  - by rewrite bool_decide_eq_false_2.
  - destruct (decide (k0 = k)) as [->|Hne0].
    + rewrite bool_decide_eq_true_2 by done. simpl.
      by rewrite !bool_decide_eq_false_2.
    + rewrite (bool_decide_eq_false_2 (k0 = k)) by done. simpl.
      destruct (decide (k0 = k')) as [->|Hne1].
      * by rewrite !bool_decide_eq_true_2.
      * rewrite !bool_decide_eq_false_2 by done. exact IH.
Qed.

Lemma map_keys_map_set {K V} `{EqDecision K} (m : list (K * V)) (k k' : K) (v : V) :
  k' ∈ map_keys (map_set m k v) <-> k' = k \/ k' ∈ map_keys m.
Proof.
  unfold map_keys. induction m as [|[k0 v0] m IH]; simpl.
  - rewrite elem_of_cons, elem_of_nil. tauto.
  - destruct (decide (k0 = k)) as [->|Hne].
    + rewrite bool_decide_eq_true_2 by done. simpl. rewrite !elem_of_cons. tauto.
    + rewrite bool_decide_eq_false_2 by done. simpl. rewrite !elem_of_cons, IH. tauto.
Qed.

Lemma map_get_Some_keys {K V} `{EqDecision K} (m : list (K * V)) (k : K) :
  is_Some (map_get m k) <-> k ∈ map_keys m.
Proof.
  unfold map_get, map_keys. induction m as [|[k0 v0] m IH]; simpl.
  - split; [by intros [? ?] | by intros ?%elem_of_nil].
  - destruct (decide (k0 = k)) as [->|Hne].
    + rewrite bool_decide_eq_true_2 by done. simpl. split; [left | by eexists].
    + rewrite bool_decide_eq_false_2 by done. rewrite IH, elem_of_cons.
      split; [by right | intros [?|?]; [congruence | done]].
Qed.

Lemma group_key_inj (g g' : string) : "_" +:+ g = "_" +:+ g' -> g = g'.
Proof. rewrite !append_String, !append_empty. by intros [= ->]. Qed.

(** The loop that takes the paths of the groups out of the query. *)
Lemma extract_groups_spec (groups : list string)
    (pathInfos : list (string * option string))
    (pathMap : list (option string * option string))
    (queryDict : gmap string string) :
  let result := fold_left extract_group groups (pathInfos, pathMap, queryDict) in
  (forall key,
      result.2 !! key =
      if bool_decide (key ∈ map (fun group => "_" +:+ group) groups) then None
      else queryDict !! key) /\
  map_get result.1.2 None = map_get pathMap None /\
  (forall group,
      map_get result.1.2 (Some group) =
      if bool_decide (group ∈ groups) then
        match group_path queryDict group with
        | Some path => Some (Some path)
        | None => map_get pathMap (Some group)
        end
      else map_get pathMap (Some group)).
Proof.
  revert pathInfos pathMap queryDict.
  induction groups as [|a groups IH]; intros pathInfos pathMap queryDict.
  { simpl. split; [|split]; done. }
  change (fold_left extract_group (a :: groups) (pathInfos, pathMap, queryDict))
    with (fold_left extract_group groups
            (extract_group (pathInfos, pathMap, queryDict) a)).
  assert (exists pathInfos1 pathMap1 queryDict1,
             extract_group (pathInfos, pathMap, queryDict) a
             = (pathInfos1, pathMap1, queryDict1) /\
             queryDict1 = delete ("_" +:+ a) queryDict /\
             map_get pathMap1 None = map_get pathMap None /\
             (forall group,
                 map_get pathMap1 (Some group) =
                 if bool_decide (group = a) then
                   match group_path queryDict a with
                   | Some path => Some (Some path)
                   | None => map_get pathMap (Some a)
                   end
                 else map_get pathMap (Some group)))
    as (pathInfos1 & pathMap1 & queryDict1 & -> & -> & Hnone1 & Hsome1).
  { unfold extract_group, group_path.
    destruct (queryDict !! ("_" +:+ a)) as [path|] eqn:Hkey.
    - destruct (truthy path).
      + eexists _, _, _. split; [reflexivity|]. split; [done|]. split.
        * by rewrite map_get_map_set_ne.
        * intros group. case_bool_decide as Hg.
          -- subst. by rewrite map_get_map_set_eq.
          -- rewrite map_get_map_set_ne; [done | congruence].
      + eexists _, _, _. split; [reflexivity|]. split; [done|]. split; [done|].
        intros group. case_bool_decide as Hg; by subst.
    - eexists _, _, _. split; [reflexivity|].
      split; [by rewrite delete_id|]. split; [done|].
      intros group. case_bool_decide as Hg; by subst. }
  specialize (IH pathInfos1 pathMap1 (delete ("_" +:+ a) queryDict)).
  cbv zeta in IH |- *. destruct IH as (IHq & IHnone & IHsome).
  split; [|split].
  - intros key. rewrite IHq. simpl map.
    destruct (decide (key = "_" +:+ a)) as [->|Hne].
    + rewrite (bool_decide_eq_true_2 (_ ∈ _ :: _)) by (by left).
      case_bool_decide; [done | by rewrite lookup_delete_eq].
    + rewrite lookup_delete_ne by done.
      case_bool_decide as Hin.
      * by rewrite bool_decide_eq_true_2 by (by right).
      * rewrite bool_decide_eq_false_2; [done|].
        intros [?|?]%elem_of_cons; done.
  - by rewrite IHnone.
  - intros group. rewrite IHsome, Hsome1.
    assert (group_path (delete ("_" +:+ a) queryDict) group =
            if bool_decide (group = a) then None else group_path queryDict group)
      as ->.
    { unfold group_path. case_bool_decide as Hg.
      - subst. by rewrite lookup_delete_eq.
      - rewrite lookup_delete_ne; [done|]. intros Heq. by apply group_key_inj in Heq. }
    destruct (decide (group = a)) as [->|Hne].
    + rewrite !(bool_decide_eq_true_2 (a = a)) by done.
      rewrite (bool_decide_eq_true_2 (a ∈ a :: groups)) by (by left).
      by case_bool_decide.
    + rewrite !(bool_decide_eq_false_2 (group = a)) by done.
      case_bool_decide as Hin.
      * by rewrite bool_decide_eq_true_2 by (by right).
      * rewrite bool_decide_eq_false_2; [done|].
        intros [?|?]%elem_of_cons; done.
Qed.

Lemma new_Set_elem {K} `{EqDecision K} (keys : list K) (k : K) :
  k ∈ new_Set keys <-> k ∈ keys.
Proof.
  induction keys as [|a keys IH]; simpl; [done|].
  rewrite !elem_of_cons, list_elem_of_filter, IH.
  destruct (decide (k = a)) as [->|Hne]; [split; by left|].
  split; [intros [?|[_ ?]]; [by left | by right] | intros [?|?]; [by left | by right]].
Qed.

Lemma new_Set_NoDup {K} `{EqDecision K} (keys : list K) : NoDup (new_Set keys).
Proof.
  induction keys as [|a keys IH]; simpl; [constructor|].
  constructor.
  - rewrite list_elem_of_filter. by intros [Hne _].
  - by apply NoDup_filter.
Qed.

Lemma _asyncOnLocationChange_Updates (config : Config)
    (URLSearchParams : string -> list (string * string))
    (nextLocation : Location) (this : State) matchingSource todo :
  _asyncOnLocationChange config URLSearchParams nextLocation this
    = Updates matchingSource todo ->
  let path := pathWithoutPrefix (pathname nextLocation) (_prefix config) in
  let extracted :=
    fold_left extract_group (_groups config)
      ([(path, None)], [(None, Some path)],
       queryDict_of URLSearchParams (search nextLocation)) in
  _isNextLocationOutDated this nextLocation = false /\
  testPathPrefix (pathname nextLocation) (_prefix config) = true /\
  queryDict matchingSource = extracted.2 /\
  pathMap matchingSource = extracted.1.2 /\
  todo =
    map (fun group =>
           (group,
            default []
              (mjoin (groupToMatchToMatchEntryMapMap matchingSource !! group))))
      (new_Set (map_keys (pathMap matchingSource)
                  ++ map_keys (pathMap (_source this)))).
Proof.
  unfold _asyncOnLocationChange.
  destruct (_isNextLocationOutDated this nextLocation); [done|].
  destruct (match _location this with
            | Some location => isLocationEqual location nextLocation
            | None => false
            end); [done|].
  destruct (testPathPrefix (pathname nextLocation) (_prefix config)); [|done].
  simpl negb. cbv iota zeta.
  destruct (fold_left extract_group _ _) as [[pathInfos pathMap] queryDict].
  destruct (match_paths config pathInfos []) as [groupToMatchEntriesMap|e]; [|done].
  intros [= <- <-]. done.
Qed.


(** X12.  The pipeline makes one [_update] call for every group that has a
    path in the candidate source or in the committed source, the primary
    group among them, and no group gets two; the call is given the entries
    published for the group, or an empty map. *)
Theorem X12_one_update_per_group (config : Config)
    (URLSearchParams : string -> list (string * string))
    (nextLocation : Location) (this : State) matchingSource todo :
  _asyncOnLocationChange config URLSearchParams nextLocation this
    = Updates matchingSource todo ->
  NoDup (map fst todo) /\
  None ∈ map fst todo /\
  (forall group,
      group ∈ map fst todo <->
      group ∈ map_keys (pathMap matchingSource) \/
      group ∈ map_keys (pathMap (_source this))) /\
  (forall group entries,
      (group, entries) ∈ todo ->
      entries =
        default [] (mjoin (groupToMatchToMatchEntryMapMap matchingSource !! group))).
Proof.
  intros H.
  apply _asyncOnLocationChange_Updates in H as (_ & _ & _ & Hpaths & ->).
  assert (map_get (pathMap matchingSource) None =
          Some (Some (pathWithoutPrefix (pathname nextLocation) (_prefix config))))
    as Hprimary.
  { rewrite Hpaths.
    by rewrite (proj1 (proj2 (extract_groups_spec (_groups config) _ _ _))). }
  rewrite map_map. simpl. rewrite map_id.
  split; [apply new_Set_NoDup|].
  assert (forall group,
             group ∈ new_Set (map_keys (pathMap matchingSource)
                                ++ map_keys (pathMap (_source this))) <->
             group ∈ map_keys (pathMap matchingSource) \/
             group ∈ map_keys (pathMap (_source this))) as Hin.
  { intros group. by rewrite new_Set_elem, elem_of_app. }
  split; [|split; [exact Hin|]].
  - apply Hin. left. apply map_get_Some_keys. by rewrite Hprimary.
  - intros group entries Hgroup.
    apply list_elem_of_In, in_map_iff in Hgroup as (g & [= <- <-] & _). done.
Qed.

End publishing.


Lemma X12_one_update_per_group_witness :
  NoDup (map fst Examples.groups_updates) /\
  Some "sidebar" ∈ map fst Examples.groups_updates.
Proof.
  pose proof (X12_one_update_per_group Examples.config_groups
                Examples.params_groups Examples.location_groups
                Examples.groups_requested Examples.groups_source
                Examples.groups_updates ltac:(vm_compute; reflexivity))
    as (Hone & _ & Hall & _).
  split; [exact Hone|].
  apply Hall. left. apply list_elem_of_In. vm_compute. right. left. reflexivity.
Defined.

(** ** The chains of the groups and the whitelist of the primary route *)

Section parallel.

Import Utils Router.

Variable config : Config.

Lemma map_get_cons {K V} `{EqDecision K} (k0 : K) (v0 : V) (m : list (K * V)) (k : K) :
  map_get ((k0, v0) :: m) k = if bool_decide (k0 = k) then Some v0 else map_get m k.
Proof. unfold map_get. simpl. by case_bool_decide. Qed.

Lemma map_get_fresh {K V} `{EqDecision K} (m : list (K * V)) (k : K) :
  k ∉ map fst m -> map_get m k = None.
Proof.
  induction m as [|[k0 v0] m IH]; [done|]. simpl. intros Hk.
  rewrite map_get_cons, bool_decide_eq_false_2.
  - apply IH. intros Hin. apply Hk. by right.
  - intros ->. apply Hk. by left.
Qed.

Lemma map_set_fresh {K V} `{EqDecision K} (m : list (K * V)) (k : K) (v : V) :
  k ∉ map fst m -> map_set m k v = m ++ [(k, v)].
Proof.
  induction m as [|[k0 v0] m IH]; [done|]. simpl. intros Hk.
  rewrite bool_decide_eq_false_2.
  - rewrite IH; [done|]. intros Hin. apply Hk. by right.
  - intros ->. apply Hk. by left.
Qed.

Lemma map_set_keys {K V} `{EqDecision K} (m : list (K * V)) (k : K) (v : V) :
  k ∈ map fst m -> map fst (map_set m k v) = map fst m.
Proof.
  induction m as [|[k0 v0] m IH]; simpl.
  - by intros ?%elem_of_nil.
  - intros Hin. case_bool_decide as Hk; simpl; [by subst|].
    rewrite IH; [done|]. apply elem_of_cons in Hin as [?|?]; [congruence | done].
Qed.

Lemma map_set_NoDup {K V} `{EqDecision K} (m : list (K * V)) (k : K) (v : V) :
  NoDup (map fst m) -> NoDup (map fst (map_set m k v)).
Proof.
  intros Hm. destruct (decide (k ∈ map fst m)) as [Hin|Hout].
  - by rewrite map_set_keys.
  - rewrite map_set_fresh, map_app by done. simpl.
    apply NoDup_app. split; [done|]. split; [|apply NoDup_singleton].
    intros k' Hk' ->%list_elem_of_singleton. done.
Qed.

Lemma map_get_option {K V} `{EqDecision K} (m : list (K * V)) (k : K) :
  map_get (map (fun kv => (kv.1, Some kv.2)) m) k = Some <$> map_get m k.
Proof.
  induction m as [|[k0 v0] m IH]; [done|]. simpl.
  rewrite !map_get_cons. by case_bool_decide.
Qed.

(** The loop over the groups keeps the two collections of paths in step,
    and gives a group at most one path. *)
Lemma extract_groups_infos (groups : list string)
    (pathInfos : list (string * option string))
    (pathMap : list (option string * option string))
    (queryDict : gmap string string) :
  map (fun info => (info.2, Some info.1)) pathInfos = pathMap ->
  NoDup (map fst pathMap) ->
  (forall group, Some group ∈ map fst pathMap -> queryDict !! ("_" +:+ group) = None) ->
  let result := fold_left extract_group groups (pathInfos, pathMap, queryDict) in
  map (fun info => (info.2, Some info.1)) result.1.1 = result.1.2 /\
  NoDup (map fst result.1.2).
Proof.
  revert pathInfos pathMap queryDict.
  induction groups as [|a groups IH]; intros pathInfos pathMap queryDict Hstep Hone Hgone.
  { by simpl. }
  change (fold_left extract_group (a :: groups) (pathInfos, pathMap, queryDict))
    with (fold_left extract_group groups
            (extract_group (pathInfos, pathMap, queryDict) a)).
  assert (forall group,
             Some group ∈ map fst pathMap ->
             delete ("_" +:+ a) queryDict !! ("_" +:+ group) = None) as Hgone'.
  { intros group Hin. destruct (decide (group = a)) as [->|Hne].
    - by rewrite lookup_delete_eq.
    - rewrite lookup_delete_ne; [by apply Hgone|].
      intros Heq. by apply group_key_inj in Heq. }
  unfold extract_group.
  destruct (queryDict !! ("_" +:+ a)) as [path|] eqn:Hkey; [|by apply IH].
  destruct (truthy path); [|by apply IH].
  assert (Some a ∉ map fst pathMap) as Hfresh.
  { intros Hin. apply Hgone in Hin. congruence. }
  rewrite map_set_fresh by done.
  apply IH.
  - rewrite map_app. simpl. by rewrite Hstep.
  - rewrite map_app. simpl. apply NoDup_app. split; [done|].
    split; [|apply NoDup_singleton].
    intros k' Hk' ->%list_elem_of_singleton. done.
  - intros group. rewrite map_app. simpl.
    intros [Hin|Hin%list_elem_of_singleton]%elem_of_app.
    + by apply Hgone'.
    + injection Hin as ->. by rewrite lookup_delete_eq.
Qed.

(** The loop over the paths: the chain of a group is the chain of its
    path, when its first route is of the group. *)
Lemma match_paths_spec (pathInfos : list (string * option string))
    (m m' : list (option string * list RouteMatchEntry)) :
  NoDup (map snd pathInfos) ->
  match_paths config pathInfos m = Normal m' ->
  (NoDup (map fst m) -> NoDup (map fst m')) /\
  (forall group,
      map_get m' group =
      match map_get (map (fun info => (info.2, info.1)) pathInfos) group
              ≫= group_chain config group with
      | Some chain => Some chain
      | None => map_get m group
      end).
Proof.
  revert m. induction pathInfos as [|[path g] pathInfos IH]; intros m Hone Hrun.
  { simpl in Hrun. injection Hrun as <-. by split. }
  apply NoDup_cons in Hone as [Hfresh Hone]. simpl in Hfresh.
  assert (forall group (chain : option (list RouteMatchEntry)) m1,
             map_get m1 g =
               match chain with Some chain => Some chain | None => map_get m g end ->
             (forall group, g <> group -> map_get m1 group = map_get m group) ->
             group_chain config g path = chain ->
             match map_get (map (fun info => (info.2, info.1)) pathInfos) group
                     ≫= group_chain config group with
             | Some chain => Some chain
             | None => map_get m1 group
             end =
             match map_get (map (fun info => (info.2, info.1)) ((path, g) :: pathInfos))
                     group ≫= group_chain config group with
             | Some chain => Some chain
             | None => map_get m group
             end) as Hcase.
  { intros group chain m1 Hsame Hother Hchain. simpl map.
    rewrite map_get_cons. case_bool_decide as Hg.
    - subst group. rewrite map_get_fresh.
      + simpl. by rewrite Hsame, Hchain.
      + by rewrite map_map.
    - by rewrite Hother. }
  simpl in Hrun.
  destruct (TreeMatch._match (_children config) path) as [result|e] eqn:Hmatch;
    [|done].
  simpl in Hrun.
  destruct result as [[|entry entries]|]; simpl in Hrun.
  - apply IH in Hrun as [Hkeys Hget]; [|done]. split; [done|].
    intros group. rewrite Hget.
    apply (Hcase group None); [done | done |].
    unfold group_chain. by rewrite Hmatch.
  - case_bool_decide as Hgroup.
    + apply IH in Hrun as [Hkeys Hget]; [|done]. split; [done|].
      intros group. rewrite Hget.
      apply (Hcase group None); [done | done |].
      unfold group_chain. rewrite Hmatch. by rewrite bool_decide_eq_false_2.
    + apply IH in Hrun as [Hkeys Hget]; [|done].
      split; [intros Hm; by apply Hkeys, map_set_NoDup|].
      intros group. rewrite Hget.
      apply (Hcase group (Some (entry :: entries))).
      * by rewrite map_get_map_set_eq.
      * intros Hne. by apply map_get_map_set_ne.
      * unfold group_chain. rewrite Hmatch.
        rewrite bool_decide_eq_true_2; [done|].
        by destruct (decide (group_of config (entry_match entry) = g)).
  - apply IH in Hrun as [Hkeys Hget]; [|done]. split; [done|].
    intros group. rewrite Hget.
    apply (Hcase group None); [done | done |].
    unfold group_chain. by rewrite Hmatch.
Qed.

(** The loop over the chains of the groups, under the whitelist
    [whitelist] of the primary route. *)
Lemma whitelisted_fold (whitelist : option RouteMatch.RouteMatchParallelOptions)
    (m : list (option string * list RouteMatchEntry))
    (result : gmap (option string) (option EntryMap)) (group : option string) :
  NoDup (map fst m) ->
  fold_left
    (fun result item =>
       match snd item with
       | entry :: _ =>
           if bool_decide (whitelist = None) || no_group (fst item) ||
              bool_decide (fst item ∈
                 map Some (default [] (whitelist ≫= RouteMatch.groups))) ||
              bool_decide (entry_match entry ∈
                 default [] (whitelist ≫= RouteMatch.matches))
           then <[fst item := Some (new_EntryMap (snd item))]> result
           else result
       | [] => result
       end)
    m result !! group =
  match map_get m group with
  | Some (entry :: entries) =>
      if bool_decide (whitelist = None) || no_group group ||
         bool_decide (group ∈ map Some (default [] (whitelist ≫= RouteMatch.groups))) ||
         bool_decide (entry_match entry ∈ default [] (whitelist ≫= RouteMatch.matches))
      then Some (Some (new_EntryMap (entry :: entries)))
      else result !! group
  | _ => result !! group
  end.
Proof.
  revert result. induction m as [|[g chain] m IH]; intros result Hone; [done|].
  apply NoDup_cons in Hone as [Hfresh Hone].
  rewrite map_get_cons. cbn [fold_left fst snd].
  rewrite IH by done.
  destruct (decide (g = group)) as [->|Hne].
  - rewrite (bool_decide_eq_true_2 (group = group)) by done.
    rewrite map_get_fresh by done.
    destruct chain as [|entry entries]; [done|].
    match goal with
    | |- context [if ?allowed then <[_ := _]> _ else _] => destruct allowed
    end; [by rewrite lookup_insert_eq | done].
  - rewrite (bool_decide_eq_false_2 (g = group)) by done.
    assert (forall value : option EntryMap,
               (if bool_decide (whitelist = None) || no_group g ||
                   bool_decide (g ∈ map Some (default [] (whitelist ≫= RouteMatch.groups))) ||
                   bool_decide (match chain with
                                | entry :: _ => entry_match entry
                                | [] => []
                                end ∈ default [] (whitelist ≫= RouteMatch.matches))
                then <[g := value]> result else result) !! group = result !! group)
      as Hother.
    { intros value.
      match goal with
      | |- context [if ?allowed then <[_ := _]> _ else _] => destruct allowed
      end; [by rewrite lookup_insert_ne | done]. }
    destruct chain as [|entry' entries']; [done|].
    specialize (Hother (Some (new_EntryMap (entry' :: entries')))).
    simpl in Hother.
    destruct (map_get m group) as [[|entry entries]|]; [done | | done].
    match goal with
    | |- context [if ?allowed then Some _ else _] => by destruct allowed
    end.
Qed.

Lemma _asyncOnLocationChange_published
    (URLSearchParams : string -> list (string * string))
    (nextLocation : Location) (this : State) matchingSource todo :
  _asyncOnLocationChange config URLSearchParams nextLocation this
    = Updates matchingSource todo ->
  exists m,
    NoDup (map fst m) /\
    (forall group, map_get m group = chain_at config (pathMap matchingSource) group) /\
    groupToMatchToMatchEntryMapMap matchingSource = whitelisted config m.
Proof.
  unfold _asyncOnLocationChange.
  destruct (_isNextLocationOutDated this nextLocation); [done|].
  destruct (match _location this with
            | Some location => isLocationEqual location nextLocation
            | None => false
            end); [done|].
  destruct (testPathPrefix (pathname nextLocation) (_prefix config)); [|done].
  simpl negb. cbv iota zeta.
  pose proof (extract_groups_infos (_groups config)
                [(pathWithoutPrefix (pathname nextLocation) (_prefix config), None)]
                [(None, Some (pathWithoutPrefix (pathname nextLocation) (_prefix config)))]
                (queryDict_of URLSearchParams (search nextLocation)))
    as Hinfos.
  cbv zeta in Hinfos.
  destruct (fold_left extract_group _ _) as [[pathInfos pathMap] queryDict].
  destruct Hinfos as [Hstep Hone].
  { done. }
  { simpl. apply NoDup_singleton. }
  { simpl. by intros group ?%list_elem_of_singleton. }
  simpl in Hstep, Hone.
  destruct (match_paths config pathInfos []) as [m|e] eqn:Hrun; [|done].
  intros [= <- <-]. exists m. simpl.
  apply match_paths_spec in Hrun as [Hkeys Hget].
  - split; [apply Hkeys; constructor|]. split; [|done].
    intros group. rewrite Hget. unfold chain_at. rewrite <- Hstep.
    replace (map (fun info : string * option string => (info.2, Some info.1)) pathInfos)
      with (map (fun kv : option string * string => (kv.1, Some kv.2))
              (map (fun info : string * option string => (info.2, info.1)) pathInfos))
      by (by rewrite map_map).
    rewrite map_get_option.
    destruct (map_get _ group) as [path|]; simpl; [|done].
    by destruct (group_chain config group path).
  - rewrite <- Hstep, map_map in Hone. simpl in Hone.
    replace (map snd pathInfos)
      with (map (fun x : string * option string => x.2) pathInfos) by done.
    done.
Qed.

(** X13.  Which chains the pipeline publishes.  The chain of a group is
    the chain of its path when the first route of that chain is of the
    group.  When the primary path has no such chain, no chain is published
    at all; otherwise the chain of the primary group is published, and the
    chain of another group is published when the first route of the primary
    chain has no whitelist ([$parallel] was not called on it), when the
    group is among the groups of the whitelist, or when the first route of
    the chain is among the matches of the whitelist; a chain that is
    published is stored as the map from the routes to their entries. *)
Theorem X13_published_chains
    (URLSearchParams : string -> list (string * string))
    (nextLocation : Location) (this : State) matchingSource todo :
  _asyncOnLocationChange config URLSearchParams nextLocation this
    = Updates matchingSource todo ->
  let chain_of := chain_at config (pathMap matchingSource) in
  let published group := groupToMatchToMatchEntryMapMap matchingSource !! group in
  forall group,
    published group =
    match chain_of None, chain_of group with
    | Some (primaryEntry :: _), Some (entry :: entries) =>
        let whitelist := _parallel config !! entry_match primaryEntry in
        if bool_decide (whitelist = None) || no_group group ||
           bool_decide (group ∈ map Some (default [] (whitelist ≫= RouteMatch.groups))) ||
           bool_decide (entry_match entry ∈ default [] (whitelist ≫= RouteMatch.matches))
        then Some (Some (new_EntryMap (entry :: entries)))
        else None
    | _, _ => None
    end.
Proof.
  intros H chain_of published group. subst chain_of published. cbv beta.
  destruct (_asyncOnLocationChange_published _ _ _ _ _ H) as (m & Hone & Hget & ->).
  unfold whitelisted. rewrite Hget.
  destruct (chain_at config (pathMap matchingSource) None)
    as [[|primaryEntry primaryEntries]|]; [done | | done].
  cbv zeta. rewrite whitelisted_fold by done. rewrite Hget.
  by destruct (chain_at config (pathMap matchingSource) group) as [[|entry entries]|].
Qed.

End parallel.

Lemma X13_published_chains_witness :
  Router.groupToMatchToMatchEntryMapMap Examples.groups_source !! Some "popup" = None /\
  is_Some (Router.groupToMatchToMatchEntryMapMap Examples.groups_source
             !! Some "sidebar").
Proof.
  pose proof (X13_published_chains Examples.config_groups
                Examples.params_groups Examples.location_groups
                Examples.groups_requested Examples.groups_source
                Examples.groups_updates ltac:(vm_compute; reflexivity))
    as H.
  cbv zeta in H.
  split.
  - exact (H (Some "popup")).
  - rewrite (H (Some "sidebar")). vm_compute. eexists. reflexivity.
Defined.

(** ** A burst of locations *)

Section burst.

Import Utils Router.

Variable config : Config.
Variable URLSearchParams : string -> list (string * string).

Lemma perform_nextLocation (action : Action) (this : State) :
  _nextLocation (perform action this) = _nextLocation this.
Proof. by destruct action. Qed.

Lemma run_sync_nextLocation (p : Proc) (this : State) :
  _nextLocation (run_sync p this).1.1 = _nextLocation this.
Proof.
  revert this. induction p as [|k IH|action k IH|hook m k _]; intros this; simpl.
  - done.
  - apply IH.
  - specialize (IH (perform action this)).
    destruct (run_sync k (perform action this)) as [[this' trace] p'].
    simpl in *. by rewrite IH, perform_nextLocation.
  - done.
Qed.

Lemma start_updates_nextLocation (nextLocation : Location)
    (todo : list (option string * EntryMap)) (this : State) :
  _nextLocation (start_updates config nextLocation todo this).1.1
  = _nextLocation this.
Proof.
  unfold start_updates.
  assert (forall acc : State * list Occurrence * list Proc,
             _nextLocation
               (fold_left
                  (fun acc update =>
                     let '(this, trace, procs) := acc in
                     let '(this', trace', p) :=
                       run_sync (_update config nextLocation update.1 update.2) this in
                     (this', trace ++ trace', procs ++ [p]))
                  todo acc).1.1
             = _nextLocation acc.1.1) as Hgen.
  { induction todo as [|update todo IH]; intros [[this0 trace] procs]; [done|].
    simpl fold_left.
    pose proof (run_sync_nextLocation
                  (_update config nextLocation update.1 update.2) this0) as Hrun.
    destruct (run_sync _ this0) as [[this' trace'] p].
    by rewrite IH. }
  apply (Hgen (this, [], [])).
Qed.

Lemma begin_nextLocation (nextLocation : Location) (this : State) :
  _nextLocation (begin config URLSearchParams nextLocation this).1.1
  = _nextLocation this.
Proof.
  unfold begin.
  destruct (_asyncOnLocationChange _ _ _ _) as [|pathname|e|matchingSource todo];
    try done.
  - by destruct (has_onLeave config).
  - pose proof (start_updates_nextLocation nextLocation todo
                  (perform (Publish matchingSource) this)) as Hstart.
    by destruct (start_updates _ _ _ _) as [[this' trace] procs].
Qed.

Lemma step_nextLocation (system system' : System) :
  step config URLSearchParams system system' ->
  (queue system <> [] -> _nextLocation (state system) = last (queue system)) ->
  queue system' <> [] -> _nextLocation (state system') = last (queue system').
Proof.
  intros Hstep Hinv.
  destruct Hstep as [system location|system system' Hb|
                     system i results system' Ha|system system' Hf].
  - intros _. simpl. by rewrite last_snoc.
  - unfold begin_next in Hb.
    destruct (in_flight system); [done|].
    destruct (queue system) as [|nextLocation rest] eqn:Hqueue; [done|].
    pose proof (begin_nextLocation nextLocation (state system)) as Hbegin.
    destruct (begin _ _ _ _) as [[this' trace] started].
    injection Hb as <-. simpl in *. intros Hrest.
    rewrite Hbegin, Hinv by done.
    by destruct rest.
  - unfold answer in Ha.
    destruct (updates system !! i) as [[| | |hook m k]|]; try done.
    pose proof (run_sync_nextLocation (k results) (state system)) as Hrun.
    destruct (run_sync _ _) as [[this' trace] p']. injection Ha as <-.
    simpl in *. by rewrite Hrun.
  - unfold finish in Hf.
    destruct (in_flight system) as [[from to]|]; [|done].
    destruct (forallb _ _); [|done]. injection Hf as <-. cbn [state queue].
    destruct (has_onChange config); exact Hinv.
Qed.

Lemma reachable_nextLocation (system : System) :
  reachable config URLSearchParams system ->
  queue system <> [] -> _nextLocation (state system) = last (queue system).
Proof.
  unfold reachable. revert system.
  refine (rtc_ind_r
            (fun system =>
               queue system <> [] -> _nextLocation (state system) = last (queue system))
            _ _ _).
  - done.
  - intros system system' _ Hstep Hinv. by apply (step_nextLocation system).
Qed.

(** X14.  In every state the router reaches, whatever locations arrive
    and whatever the hooks answer: while a location waits for its
    [_asyncOnLocationChange], the location recorded as the next one is the
    one that arrived last; and when the turn of a waiting location comes
    after a later one has arrived, its [_asyncOnLocationChange] returns at
    once: no field is written, no path is matched, no update is begun and
    [onChange] will not be called for it. *)
Theorem X14_only_the_latest_location_is_taken (system : System)
    (location newest : Location) (rest : list Location) :
  reachable config URLSearchParams system ->
  in_flight system = None ->
  queue system = location :: rest ->
  last rest = Some newest ->
  location <> newest ->
  _nextLocation (state system) = Some newest /\
  _asyncOnLocationChange config URLSearchParams location (state system) = Returns /\
  begin_next config URLSearchParams system =
    Some {| state := state system; updates := []; in_flight := None; queue := rest |}.
Proof.
  intros Hreach Hidle Hqueue Hlast Hne.
  assert (_nextLocation (state system) = Some newest) as Hnext.
  { rewrite reachable_nextLocation by (done || by rewrite Hqueue).
    rewrite Hqueue. destruct rest; [done|]. exact Hlast. }
  assert (_asyncOnLocationChange config URLSearchParams location (state system)
          = Returns) as Hreturns.
  { unfold _asyncOnLocationChange, _isNextLocationOutDated.
    rewrite Hnext, bool_decide_eq_true_2; [done|]. congruence. }
  split; [done|]. split; [done|].
  unfold begin_next, begin. by rewrite Hidle, Hqueue, Hreturns.
Qed.

End burst.

Lemma X14_only_the_latest_location_is_taken_witness :
  let system :=
    Router.deliver Examples.location_account
      (Router.deliver Examples.location_home Router.boot) in
  Router.begin_next Examples.config_account Examples.no_query system =
    Some {| Router.state := Router.state system; Router.updates := [];
            Router.in_flight := None; Router.queue := [Examples.location_account] |}.
Proof.
  intros system.
  apply (X14_only_the_latest_location_is_taken Examples.config_account
           Examples.no_query system Examples.location_home Examples.location_account
           [Examples.location_account]).
  - eapply rtc_l; [apply Router.step_location|].
    eapply rtc_l; [apply Router.step_location|]. apply rtc_refl.
  - reflexivity.
  - reflexivity.
  - reflexivity.
  - discriminate.
Defined.

(** ** The hooks of one update *)

Section hooks.

Import Utils Router.

Variable config : Config.
Variable nextLocation : Location.

Lemma elem_of_map_pair {A B} (b b' : B) (l : list A) (a : A) :
  (b', a) ∈ map (fun a => (b, a)) l <-> b' = b /\ a ∈ l.
Proof.
  rewrite list_elem_of_In, in_map_iff. split.
  - intros (a' & [= <- <-] & Hin). by rewrite list_elem_of_In.
  - intros [-> Hin]. exists a. by rewrite <- list_elem_of_In.
Qed.

Lemma elem_of_map_before_hook (previous l : list NodeId) (hook : HookKind) (m : NodeId) :
  (hook, m) ∈ map (before_hook previous) l <->
  m ∈ l /\ hook = if bool_decide (m ∈ previous) then BeforeUpdate else BeforeEnter.
Proof.
  rewrite list_elem_of_In, in_map_iff. unfold before_hook. split.
  - intros (m' & [= <- <-] & Hin). by rewrite list_elem_of_In.
  - intros [Hin ->]. exists m. by rewrite <- list_elem_of_In.
Qed.

Lemma elem_of_map_after_hook (previous l : list NodeId) (hook : HookKind) (m : NodeId) :
  (hook, m) ∈ map (after_hook previous) l <->
  m ∈ l /\ hook = if bool_decide (m ∈ previous) then AfterUpdate else AfterEnter.
Proof.
  rewrite list_elem_of_In, in_map_iff. unfold after_hook. split.
  - intros (m' & [= <- <-] & Hin). by rewrite list_elem_of_In.
  - intros [Hin ->]. exists m. by rewrite <- list_elem_of_In.
Qed.

Lemma hooks_awaited_app (a b : list Occurrence) :
  hooks_awaited (a ++ b) = hooks_awaited a ++ hooks_awaited b.
Proof. apply omap_app. Qed.

Lemma hooks_awaited_Did (actions : list Action) : hooks_awaited (map Did actions) = [].
Proof. by induction actions. Qed.

Lemma hooks_awaited_awaited (hooks : list (HookKind * NodeId)) :
  hooks_awaited (awaited hooks) = hooks.
Proof.
  induction hooks as [|[hook m] hooks IH]; [done|].
  change (hooks_awaited (awaited ((hook, m) :: hooks)))
    with ((hook, m) :: hooks_awaited (awaited hooks)).
  by rewrite IH.
Qed.

Lemma filter_map_all {A B} (P : B -> Prop) `{forall b, Decision (P b)}
    (f : A -> B) (l : list A) :
  (forall a, P (f a)) -> filter P (map f l) = map f l.
Proof.
  intros HP. induction l as [|a l IH]; [done|]. simpl.
  rewrite filter_cons_True by done. by rewrite IH.
Qed.

Lemma filter_map_none {A B} (P : B -> Prop) `{forall b, Decision (P b)}
    (f : A -> B) (l : list A) :
  (forall a, ~ P (f a)) -> filter P (map f l) = [].
Proof.
  intros HP. induction l as [|a l IH]; [done|]. simpl.
  by rewrite filter_cons_False.
Qed.

(** The whole run of an update whose [before] hooks are all approved. *)
Lemma run__update_complete (group : option string)
    (matchToMatchEntryMap : EntryMap) (this before : State)
    (pre post : list Resumption) :
  let this0 := prepared this group in
  length pre = length (before_hooks config this0 group matchToMatchEntryMap) ->
  approved nextLocation this0 pre = Some before ->
  length post = length (after_hooks config this0 group matchToMatchEntryMap) ->
  hooks_awaited
    (run (_update config nextLocation group matchToMatchEntryMap) this
       (pre ++ post)).1.2 =
  before_hooks config this0 group matchToMatchEntryMap
    ++ after_hooks config this0 group matchToMatchEntryMap.
Proof.
  intros this0 Hlen Hpre Hpost.
  rewrite (run__update_approved config nextLocation group matchToMatchEntryMap
             this before pre post Hlen Hpre).
  cbv zeta. unfold after_hooks in Hpost. fold this0 in Hpost |- *.
  rewrite (run_after_loops_all _ _ post _ Hpost). cbn [fst snd].
  rewrite !hooks_awaited_app, !hooks_awaited_Did, !hooks_awaited_awaited.
  done.
Qed.

(** X15.  The hooks an update asks, when its [before] hooks are all
    approved and it runs to its end, for a group with the committed chain
    [previous] and the new chain [next]: no route is asked two [before]
    hooks, nor two [after] hooks; [beforeLeave] and [afterLeave] are asked
    of the routes of [previous] that are not in [next]; [beforeEnter] and
    [afterEnter] of the routes of [next] that are not in [previous];
    [beforeUpdate] and [afterUpdate] of the routes of both, unless their
    path segments are the same in the committed and in the candidate source
    and their exactness does not change, as found when the update begins. *)
Theorem X15_one_hook_per_route (group : option string)
    (matchToMatchEntryMap : EntryMap) (this before : State)
    (pre post : list Resumption) :
  let this0 := prepared this group in
  length pre = length (before_hooks config this0 group matchToMatchEntryMap) ->
  approved nextLocation this0 pre = Some before ->
  length post = length (after_hooks config this0 group matchToMatchEntryMap) ->
  let asked :=
    hooks_awaited
      (run (_update config nextLocation group matchToMatchEntryMap) this
         (pre ++ post)).1.2 in
  let previous := previousMatchSet this0 group in
  let next := nextMatchSet matchToMatchEntryMap in
  let unchanged m :=
    isShallowlyEqual (_pathSegments config (_source this0) m)
      (_pathSegments config (_matchingSource this0) m) = true /\
    exact_flag this0 m = next_exact config (_matchingSource this0) m in
  NoDup (map snd (filter (fun asking => is_before asking.1 = true) asked)) /\
  NoDup (map snd (filter (fun asking => is_before asking.1 = false) asked)) /\
  (forall hook m,
      (hook, m) ∈ asked <->
      ((hook = BeforeLeave \/ hook = AfterLeave) /\ m ∈ previous /\ m ∉ next) \/
      ((hook = BeforeEnter \/ hook = AfterEnter) /\ m ∈ next /\ m ∉ previous) \/
      ((hook = BeforeUpdate \/ hook = AfterUpdate) /\
       m ∈ next /\ m ∈ previous /\ ~ unchanged m)).
Proof.
  intros this0 Hlen Hpre Hpost asked previous next unchanged. subst asked.
  rewrite (run__update_complete group matchToMatchEntryMap this before pre post
             Hlen Hpre Hpost).
  fold this0. unfold before_hooks, after_hooks. fold previous.
  set (leaving := reversedLeavingMatches this0 group matchToMatchEntryMap).
  set (entering := enteringAndUpdatingMatchSet config this0 group matchToMatchEntryMap).
  assert (forall m, m ∈ leaving <-> m ∈ previous /\ m ∉ next) as Hleaving.
  { intros m. unfold leaving, reversedLeavingMatches.
    rewrite elem_of_reverse, list_elem_of_filter. fold previous next. tauto. }
  assert (forall m, m ∈ entering <-> m ∈ next /\ ~ (m ∈ previous /\ unchanged m))
    as Hentering.
  { intros m. unfold entering, enteringAndUpdatingMatchSet.
    rewrite list_elem_of_filter. fold previous next. subst unchanged. cbv beta. tauto. }
  assert (NoDup (leaving ++ entering)) as Hone.
  { apply NoDup_app. split; [|split].
    - unfold leaving, reversedLeavingMatches. rewrite reverse_Permutation.
      apply NoDup_filter, new_Set_NoDup.
    - intros m Hl He. apply Hleaving in Hl. apply Hentering in He. tauto.
    - apply NoDup_filter, new_Set_NoDup. }
  split; [|split].
  - rewrite !filter_app.
    rewrite (filter_map_all _ (fun m => (BeforeLeave, m))) by done.
    rewrite (filter_map_all _ (before_hook previous))
      by (intros m; unfold before_hook; by case_bool_decide).
    rewrite (filter_map_none _ (fun m => (AfterLeave, m))) by done.
    rewrite (filter_map_none _ (after_hook previous))
      by (intros m; unfold after_hook; by case_bool_decide).
    rewrite !app_nil_r, map_app, !map_map. simpl. by rewrite !map_id.
  - rewrite !filter_app.
    rewrite (filter_map_none _ (fun m => (BeforeLeave, m))) by done.
    rewrite (filter_map_none _ (before_hook previous))
      by (intros m; unfold before_hook; by case_bool_decide).
    rewrite (filter_map_all _ (fun m => (AfterLeave, m))) by done.
    rewrite (filter_map_all _ (after_hook previous))
      by (intros m; unfold after_hook; by case_bool_decide).
    simpl. rewrite map_app, !map_map. simpl. by rewrite !map_id.
  - intros hook m.
    rewrite !elem_of_app, !elem_of_map_pair, elem_of_map_before_hook,
      elem_of_map_after_hook, Hleaving, Hentering.
    case_bool_decide as Hprev; split.
    + intros [[[-> ?]|[[? ?] ->]]|[[-> ?]|[[? ?] ->]]];
        [left; tauto | right; right; tauto | left; tauto | right; right; tauto].
    + intros [([->| ->] & ? & ?)|[([->| ->] & ? & ?)|([->| ->] & ? & ? & ?)]];
        try done; tauto.
    + intros [[[-> ?]|[[? ?] ->]]|[[-> ?]|[[? ?] ->]]];
        [left; tauto | right; left; tauto | left; tauto | right; left; tauto].
    + intros [([->| ->] & ? & ?)|[([->| ->] & ? & ?)|([->| ->] & ? & ? & ?)]];
        try done; tauto.
Qed.

End hooks.

Lemma X15_one_hook_per_route_witness :
  (Router.BeforeEnter, ["account"]) ∈
    Router.hooks_awaited
      (Router.run (Router._update Examples.config_account Examples.location_account
              None Examples.entries_account)
         Examples.account_requested
         ([Examples.quietly [Router.ReturnsUndefined];
           Examples.quietly [Router.ReturnsTrue]]
            ++ [Examples.quietly []; Examples.quietly []])).1.2.
Proof.
  pose proof (X15_one_hook_per_route Examples.config_account
                Examples.location_account None Examples.entries_account
                Examples.account_requested
                (Router.prepared Examples.account_requested None)
                [Examples.quietly [Router.ReturnsUndefined];
                 Examples.quietly [Router.ReturnsTrue]]
                [Examples.quietly []; Examples.quietly []])
    as H.
  cbv zeta in H.
  specialize (H ltac:(by vm_compute) ltac:(by vm_compute) ltac:(by vm_compute)).
  destruct H as (_ & _ & H). apply H. right. left.
  split; [by left|]. split.
  - apply list_elem_of_In. vm_compute. left. reflexivity.
  - intros Hin. apply list_elem_of_In in Hin. vm_compute in Hin. exact Hin.
Defined.

(** ** The query of a route *)

Lemma _query_fold (queryKeys : list string) (sourceQueryDict : gmap string string)
    (dict : gmap string Utils.Member) (key : string) :
  fold_left
    (fun dict key =>
       match Utils.dict_get (Some <$> sourceQueryDict) key with
       | Utils.Text None => dict
       | value =>
           if String.eqb key "__proto__" then dict else <[key := value]> dict
       end)
    queryKeys dict !! key =
  if bool_decide (key ∈ queryKeys) && negb (String.eqb key "__proto__") then
    match Utils.dict_get (Some <$> sourceQueryDict) key with
    | Utils.Text None => dict !! key
    | value => Some value
    end
  else dict !! key.
Proof.
  revert dict. induction queryKeys as [|k queryKeys IH]; intros dict; [done|].
  cbn [fold_left]. rewrite IH.
  destruct (decide (key = k)) as [->|Hne].
  - rewrite (bool_decide_eq_true_2 (k ∈ k :: queryKeys)) by (by left).
    destruct (String.eqb k "__proto__") eqn:Hproto.
    + rewrite andb_false_r. simpl. by destruct (Utils.dict_get _ k) as [[?|]|].
    + rewrite !andb_true_r. simpl.
      destruct (Utils.dict_get _ k) as [[value|]|name];
        rewrite ?lookup_insert_eq; by case_bool_decide.
  - assert (match Utils.dict_get (Some <$> sourceQueryDict) k with
            | Utils.Text None => dict
            | value =>
                if String.eqb k "__proto__" then dict else <[k := value]> dict
            end !! key = dict !! key) as ->.
    { destruct (Utils.dict_get _ k) as [[?|]|]; [|done|];
        destruct (String.eqb k "__proto__"); by rewrite ?lookup_insert_ne. }
    destruct (decide (key ∈ queryKeys)) as [Hin|Hout].
    + by rewrite !bool_decide_eq_true_2 by (done || by right).
    + rewrite !bool_decide_eq_false_2; [done | | done].
      intros [?|?]%elem_of_cons; done.
Qed.

(** X16.  The query of a route: a route without [$query] has none; a
    route with [$query] has the dictionary whose keys are among the keys of
    [$query], [__proto__] never being one: such a key has the value the
    query of the source has for it, or else, when it names a member of
    [Object.prototype], that member, which the read of the key finds by
    inheritance; a key of which the read gives [undefined] is left out. *)
Theorem X16_query_of_declared_keys (sourceQueryDict : gmap string string) :
  RouteMatch._query None sourceQueryDict = None /\
  forall queryKeys,
    exists query,
      RouteMatch._query (Some queryKeys) sourceQueryDict = Some query /\
      forall key,
        query !! key =
        if bool_decide (key ∈ queryKeys) && negb (String.eqb key "__proto__") then
          match sourceQueryDict !! key with
          | Some value => Some (Utils.Text (Some value))
          | None =>
              if bool_decide (key ∈ Utils.Object_prototype)
              then Some (Utils.Inherited key) else None
          end
        else None.
Proof.
  split; [done|]. intros queryKeys. eexists. split; [reflexivity|].
  intros key. rewrite _query_fold, lookup_empty.
  destruct (_ && _); [|done].
  unfold Utils.dict_get. rewrite lookup_fmap.
  destruct (sourceQueryDict !! key); simpl; [done|]. by case_bool_decide.
Qed.

(** [$query: {id: true, constructor: true}] on the query [id=7]. *)
Lemma _query_inherited :
  RouteMatch._query (Some ["id"; "constructor"; "tab"]) {[ "id" := "7" ]} =
  Some {[ "id" := Utils.Text (Some "7");
          "constructor" := Utils.Inherited "constructor" ]}.
Proof. by vm_compute. Qed.
